(** * The parquet merge tool: schema reconciliation and streaming copy

    A shallow embedding of [write-read.go] (the [main], [findFiles], [merge],
    [copyFromFile], [getSchemaNodes] and [schemaTypeToNode] functions of the
    merge command) together with the properties of its specification.

    Go maps are [gmap]s, [(value, error)] returns are [result]s, and a run of
    the process is a function from the file system before the run to the way
    the process ended and the file system it left behind. *)

From Stdlib Require Import ZArith Ascii.
From stdpp Require Import gmap strings list fin_maps pretty sorting.

Local Open Scope string_scope.
Local Open Scope Z_scope.
Local Open Scope list_scope.

(** ** Errors *)

(** The [error] values that occur in the program.  The three [fmt.Errorf]
    calls of the source are kept apart from the errors that [os] and
    [parquet] hand back; [Error] is the method that renders them. *)
Inductive error : Type :=
  | EOF                                        (* io.EOF *)
  | ErrUnsupportedType (typ logical : string)  (* write-read.go, schemaTypeToNode *)
  | ErrSchemaMismatch (name : string)          (* write-read.go, getSchemaNodes *)
  | ErrWriteCount (n : Z)                      (* write-read.go, copyFromFile *)
  | ErrExternal (msg : string).                (* raised by os or parquet *)

#[global] Instance error_eq_dec : EqDecision error.
Proof. solve_decision. Defined.

Definition Error (e : error) : string :=
  match e with
  | EOF => "EOF"
  | ErrUnsupportedType typ logical =>
      "unsupported type: " +:+ typ +:+ ", logical " +:+ logical
  | ErrSchemaMismatch name => "schema mismatch: " +:+ name
  | ErrWriteCount n => "expected to write 1 record, wrote " +:+ pretty n
  | ErrExternal msg => msg
  end.

(** A Go return of type [(A, error)]. *)
Inductive result (A : Type) : Type :=
  | Ok (a : A)
  | Err (e : error).
Arguments Ok {A} a.
Arguments Err {A} e.

(** A run of the process either reaches the end of the function it is in,
    or stops in [log.Fatal]/[log.Fatalf], which print a message and exit. *)
Inductive outcome (A : Type) : Type :=
  | Done (a : A)
  | Fatal (msg : string).
Arguments Done {A} a.
Arguments Fatal {A} msg.

#[global] Instance result_bind : MBind result :=
  λ A B k m, match m with Ok a => k a | Err e => Err e end.

(** ** Data *)

(** The values a record ([map[string]any]) holds. *)
Inductive Value : Type :=
  | VNil
  | VInt (z : Z)
  | VBool (b : bool)
  | VString (s : string).

#[global] Instance Value_eq_dec : EqDecision Value.
Proof. solve_decision. Defined.

Abbreviation row := (gmap string Value).

Module format.

(** [format.SchemaElement], with [Type] and [LogicalType] already rendered
    by their [String] methods; [None] is the nil pointer. *)
Record SchemaElement : Type := {
  Name : string;
  Type_ : option string;
  LogicalType : option string;
}.

End format.

(** ** The column-store library *)

Module parquet.

(** Physical types that the program hands to [parquet.Leaf]. *)
Inductive Type_ : Type := FloatType | DoubleType | BooleanType | ByteArrayType.

(** [parquet.Node] values, as far as the program builds them:
    [parquet.Int(bits)], [parquet.Uint(bits)], [parquet.Leaf(t)] and
    [parquet.String()], wrapped by [parquet.Optional] or
    [parquet.Required].  The program compares nodes with [!=]; every node
    it compares is one of the thirteen package-level values of [nodemap]
    and [string_node], for which being the same object and being the same
    term coincide. *)
Inductive Node : Type :=
  | Int (bits : Z)
  | Uint (bits : Z)
  | Leaf (t : Type_)
  | String
  | Optional (n : Node)
  | Required (n : Node).

#[global] Instance Type_eq_dec : EqDecision Type_.
Proof. solve_decision. Defined.

#[global] Instance Node_eq_dec : EqDecision Node.
Proof. solve_decision. Defined.

(** [parquet.NewSchema(name, parquet.Group(nodes))]. *)
Record Schema : Type := NewSchema {
  schema_name : string;
  schema_group : gmap string Node;
}.

(** What one [Read] of a stored file yields: the next record, or the error
    of a page that cannot be decoded. *)
Inductive ReadEvent : Type :=
  | Row (r : row)
  | Corrupt (msg : string).

(** A stored parquet file: the schema elements of its metadata, in stored
    order, and its row data. *)
Record File : Type := {
  Metadata_Schema : list format.SchemaElement;
  data : list ReadEvent;
}.

End parquet.

(** What a path of the file system holds: a parquet file, or bytes that do
    not form one (an empty file, a file still being written). *)
Inductive FileData : Type :=
  | Opaque
  | Parquet (f : parquet.File).

Abbreviation FS := (gmap string FileData).

Record DirEntry : Type := {
  entry_Name : string;
  entry_IsDir : bool;
}.

(** ** The environment of a run

    Everything the program leaves to the runtime, the operating system and
    the library: the order in which [range] visits a map, which is
    unspecified in Go, and the points at which an external call fails. *)
Record Env : Type := {
  (** order of [for k, v := range nodes] for the file at position [i] *)
  range_nodes : nat → gmap string parquet.Node → list (string * parquet.Node);
  (** order of [for file := range fileSchema] *)
  range_files : gmap string parquet.Schema → list (string * parquet.Schema);
  (** [os.ReadDir] *)
  read_dir : string → result (list DirEntry);
  (** the error of [os.Create], if it fails on this path *)
  create_err : string → option error;
  (** the error of [parquet.NewWriterConfig], if it fails *)
  config_err : parquet.Schema → option error;
  (** what the [k]-th call of [writer.Write] reports, when it does not
      simply write everything it was given *)
  write_fault : nat → option (Z * option error);
  (** the error of [writer.Close], if it fails *)
  close_err : option error;
  (** the schema elements the library stores for a schema *)
  encode_schema : parquet.Schema → list format.SchemaElement;
}.

(** Go promises that [range] visits every entry of a map exactly once. *)
Definition fair (env : Env) : Prop :=
  (∀ i nodes, range_nodes env i nodes ≡ₚ map_to_list nodes) ∧
  (∀ fileSchema, range_files env fileSchema ≡ₚ map_to_list fileSchema).

(** ** TypeMapper: [schemaTypeToNode] *)

Definition nodemap : gmap string parquet.Node :=
  list_to_map
    [ ("INT8",       parquet.Optional (parquet.Int 8));
      ("INT16",      parquet.Optional (parquet.Int 16));
      ("INT32",      parquet.Optional (parquet.Int 32));
      ("INT64",      parquet.Optional (parquet.Int 64));
      ("UINT8",      parquet.Optional (parquet.Uint 8));
      ("UINT16",     parquet.Optional (parquet.Uint 16));
      ("UINT32",     parquet.Optional (parquet.Uint 32));
      ("UINT64",     parquet.Optional (parquet.Uint 64));
      ("FLOAT",      parquet.Optional (parquet.Leaf parquet.FloatType));
      ("DOUBLE",     parquet.Optional (parquet.Leaf parquet.DoubleType));
      ("BOOLEAN",    parquet.Optional (parquet.Leaf parquet.BooleanType));
      ("BYTE_ARRAY", parquet.Optional (parquet.Leaf parquet.ByteArrayType)) ].

Definition string_node : parquet.Node := parquet.Optional parquet.String.

Definition schemaTypeToNode (typ logical : string) : result parquet.Node :=
  if decide (logical = "STRING") then Ok string_node
  else match nodemap !! typ with
       | Some node => Ok node
       | None => Err (ErrUnsupportedType typ logical)
       end.


(** ** SchemaExtractor: [getSchemaNodes] *)

Module os.

Definition not_exist (op name : string) : error :=
  ErrExternal (op +:+ " " +:+ name +:+ ": no such file or directory").

(** [os.Stat]; the size it reports is only handed on to
    [parquet.OpenFile]. *)
Definition Stat (fs : FS) (name : string) : result unit :=
  match fs !! name with
  | Some _ => Ok ()
  | None => Err (not_exist "stat" name)
  end.

Definition Open (fs : FS) (name : string) : result FileData :=
  match fs !! name with
  | Some d => Ok d
  | None => Err (not_exist "open" name)
  end.

(** [os.Create] makes the file, or truncates the one that is there. *)
Definition Create (env : Env) (name : string) (fs : FS) : result unit * FS :=
  match create_err env name with
  | Some err => (Err err, fs)
  | None => (Ok (), <[name := Opaque]> fs)
  end.

Definition ReadDir (env : Env) (dir : string) : result (list DirEntry) :=
  read_dir env dir.

End os.

Definition parquet_OpenFile (r : FileData) : result parquet.File :=
  match r with
  | Parquet f => Ok f
  | Opaque => Err (ErrExternal "invalid parquet file")
  end.

(** The body of the loop over [md.Schema]. *)
Definition getSchemaNodes_step (nodes : gmap string parquet.Node)
    (schema : format.SchemaElement) : result (gmap string parquet.Node) :=
  match format.Type_ schema with
  | None => Ok nodes
  | Some typ =>
      let logicalType := default "" (format.LogicalType schema) in
      stype ← schemaTypeToNode typ logicalType;
      match nodes !! format.Name schema with
      | Some currentNode =>
          if decide (currentNode ≠ stype)
          then Err (ErrSchemaMismatch (format.Name schema))
          else Ok nodes
      | None => Ok (<[format.Name schema := stype]> nodes)
      end
  end.

Fixpoint getSchemaNodes_loop (md : list format.SchemaElement)
    (nodes : gmap string parquet.Node) : result (gmap string parquet.Node) :=
  match md with
  | [] => Ok nodes
  | schema :: md' =>
      nodes' ← getSchemaNodes_step nodes schema;
      getSchemaNodes_loop md' nodes'
  end.

Definition getSchemaNodes (fs : FS) (fname : string)
    : result (gmap string parquet.Node) :=
  _ ← os.Stat fs fname;
  r ← os.Open fs fname;
  f ← parquet_OpenFile r;
  getSchemaNodes_loop (parquet.Metadata_Schema f) ∅.

(** ** StreamingCopier: [copyFromFile] *)

(** [parquet.GenericWriter[map[string]any]]: the file it writes to, the
    schema it is bound to, the rows it has accepted and the number of
    [Write] calls it has served. *)
Record GenericWriter : Type := {
  wr_out : string;
  wr_schema : parquet.Schema;
  wr_rows : list row;
  wr_calls : nat;
}.

Definition NewGenericWriter (outf : string) (schema : parquet.Schema)
    : GenericWriter :=
  {| wr_out := outf; wr_schema := schema; wr_rows := []; wr_calls := 0 |}.

(** [writer.Write(rows)] reports the number of rows it took, and takes that
    many.  Without a fault it takes all of them. *)
Definition Writer_Write (env : Env) (writer : GenericWriter) (rows : list row)
    : (Z * option error) * GenericWriter :=
  let '(n, err) :=
    default (Z.of_nat (length rows), None) (write_fault env (wr_calls writer)) in
  ((n, err),
   {| wr_out := wr_out writer;
      wr_schema := wr_schema writer;
      wr_rows := wr_rows writer ++ take (Z.to_nat n) rows;
      wr_calls := S (wr_calls writer) |}).

(** [writer.Close()] flushes the rows and the footer: only then is the file
    a parquet file. *)
Definition Writer_Close (env : Env) (writer : GenericWriter) (fs : FS)
    : option error * FS :=
  match close_err env with
  | Some err => (Some err, fs)
  | None =>
      (None,
       <[wr_out writer :=
           Parquet {| parquet.Metadata_Schema := encode_schema env (wr_schema writer);
                      parquet.data := parquet.Row <$> wr_rows writer |}]> fs)
  end.

(** A record as a reader bound to [schema] reconstructs it: one entry per
    column of the schema, nil where the stored row has no value. *)
Definition read_row (schema : parquet.Schema) (stored : row) : row :=
  map_imap (λ k _, Some (default VNil (stored !! k))) (parquet.schema_group schema).

(** [parquet.NewReader(pf, schema)]: the records still to be read. *)
Definition Reader : Type := list parquet.ReadEvent.

Definition NewReader (pf : parquet.File) (schema : parquet.Schema) : Reader :=
  (λ ev, match ev with
         | parquet.Row r => parquet.Row (read_row schema r)
         | parquet.Corrupt msg => parquet.Corrupt msg
         end) <$> parquet.data pf.

Definition Reader_Read (f : Reader) : result row * Reader :=
  match f with
  | [] => (Err EOF, [])
  | parquet.Row r :: f' => (Ok r, f')
  | parquet.Corrupt msg :: f' => (Err (ErrExternal msg), f')
  end.

(** The [for] loop of [copyFromFile]; it recurses on the records the reader
    has left, and [copy_loop_Read] states it through [Reader_Read]. *)
Fixpoint copy_loop (env : Env) (f : Reader) (writer : GenericWriter)
    : option error * GenericWriter :=
  match f with
  | [] => (None, writer)
  | parquet.Corrupt msg :: _ => (Some (ErrExternal msg), writer)
  | parquet.Row record :: f' =>
      let '((n, err), writer') := Writer_Write env writer [record] in
      match err with
      | Some err => (Some err, writer')
      | None =>
          if decide (n ≠ 1) then (Some (ErrWriteCount n), writer')
          else copy_loop env f' writer'
      end
  end.

Definition copyFromFile (env : Env) (inf : FileData) (writer : GenericWriter)
    (schema : parquet.Schema) : option error * GenericWriter :=
  match parquet_OpenFile inf with
  | Err err => (Some err, writer)
  | Ok pf => copy_loop env (NewReader pf schema) writer
  end.

(** ** SchemaMerger and MergeOrchestrator: [merge] *)

(** The required-columns loop: [keep] stays true unless some field of
    [rfields] is missing from [nodes]. *)
Fixpoint keep_file (rfields : list string) (nodes : gmap string parquet.Node)
    : bool :=
  match rfields with
  | [] => true
  | field :: rfields' =>
      match nodes !! field with
      | None => false
      | Some _ => keep_file rfields' nodes
      end
  end.

(** [for k, v := range nodes], over the entries in the order the runtime
    chose. *)
Fixpoint merge_nodes (entries : list (string * parquet.Node))
    (mergedSchema : gmap string parquet.Node)
    : outcome (gmap string parquet.Node) :=
  match entries with
  | [] => Done mergedSchema
  | (k, v) :: entries' =>
      match mergedSchema !! k with
      | Some currentNode =>
          if decide (currentNode ≠ v) then Fatal ("schema mismatch: " +:+ k)
          else merge_nodes entries' mergedSchema
      | None => merge_nodes entries' (<[k := v]> mergedSchema)
      end
  end.

(** [for _, file := range files]: extraction, filter and fold; [i] is the
    position of [file] in the list. *)
Fixpoint merge_scan (env : Env) (fs : FS) (rfields : list string) (i : nat)
    (files : list string) (mergedSchema : gmap string parquet.Node)
    (fileSchema : gmap string parquet.Schema)
    : outcome (gmap string parquet.Node * gmap string parquet.Schema) :=
  match files with
  | [] => Done (mergedSchema, fileSchema)
  | file :: files' =>
      match getSchemaNodes fs file with
      | Err err => Fatal (Error err)
      | Ok nodes =>
          if keep_file rfields nodes then
            let fileSchema' := <[file := parquet.NewSchema file nodes]> fileSchema in
            match merge_nodes (range_nodes env i nodes) mergedSchema with
            | Fatal msg => Fatal msg
            | Done mergedSchema' =>
                merge_scan env fs rfields (S i) files' mergedSchema' fileSchema'
            end
          else merge_scan env fs rfields (S i) files' mergedSchema fileSchema
      end
  end.

(** [for file := range fileSchema], over the entries in the order the
    runtime chose; [schema] is [fileSchema[file]].  A failure is the message
    [log.Fatal] prints.  Closing an input file is taken to succeed. *)
Fixpoint merge_copy (env : Env) (fs : FS)
    (entries : list (string * parquet.Schema)) (writer : GenericWriter)
    : option string * GenericWriter :=
  match entries with
  | [] => (None, writer)
  | (file, schema) :: entries' =>
      match os.Stat fs file with
      | Err err => (Some (Error err), writer)
      | Ok _ =>
          match os.Open fs file with
          | Err err => (Some (Error err), writer)
          | Ok inf =>
              match copyFromFile env inf writer schema with
              | (Some err, writer') => (Some (Error err), writer')
              | (None, writer') => merge_copy env fs entries' writer'
              end
          end
      end
  end.

Definition merge (env : Env) (outfile : string) (rfields files : list string)
    (fs : FS) : outcome unit * FS :=
  match merge_scan env fs rfields 0 files ∅ ∅ with
  | Fatal msg => (Fatal msg, fs)
  | Done (mergedSchema, fileSchema) =>
      let schema := parquet.NewSchema "merged" mergedSchema in
      match os.Create env outfile fs with
      | (Err err, fs) => (Fatal (Error err), fs)
      | (Ok _, fs) =>
          match config_err env schema with
          | Some err =>
              (Fatal ("error creating writer config: " +:+ Error err), fs)
          | None =>
              let writer := NewGenericWriter outfile schema in
              match merge_copy env fs (range_files env fileSchema) writer with
              | (Some msg, _) => (Fatal msg, fs)
              | (None, writer) =>
                  match Writer_Close env writer fs with
                  | (Some err, fs) =>
                      (Fatal ("error closing writer: " +:+ Error err), fs)
                  | (None, fs) => (Done (), fs)
                  end
              end
          end
      end
  end.

(** ** The command line: [findFiles] and [main] *)

Module strings.

(** [strings.Split(s, sep)] for a separator of one byte. *)
Fixpoint Split (s : string) (sep : Ascii.ascii) : list string :=
  match s with
  | EmptyString => [EmptyString]
  | String.String c s' =>
      if decide (c = sep) then EmptyString :: Split s' sep
      else match Split s' sep with
           | x :: xs => String.String c x :: xs
           | [] => [String.String c EmptyString]
           end
  end.

Definition HasSuffix (s suffix : string) : bool :=
  let n := String.length s in
  let m := String.length suffix in
  bool_decide (m ≤ n)%nat && bool_decide (String.substring (n - m) m s = suffix).

End strings.

Fixpoint findFiles_loop (dir : string) (files : list DirEntry)
    (out : list string) : list string :=
  match files with
  | [] => out
  | file :: files' =>
      if entry_IsDir file then findFiles_loop dir files' out
      else if strings.HasSuffix (entry_Name file) ".parquet"
           then findFiles_loop dir files' (out ++ [dir +:+ "/" +:+ entry_Name file])
           else findFiles_loop dir files' out
  end.

Definition findFiles (env : Env) (dir : string) : outcome (list string) :=
  match os.ReadDir env dir with
  | Err err => Fatal (Error err)
  | Ok files => Done (findFiles_loop dir files [])
  end.

(** [main], with the values of the three flags after [flag.Parse]. *)
Definition main (env : Env) (sourcedir outfile requireFields : string)
    (fs : FS) : outcome unit * FS :=
  if decide (sourcedir = "") then (Fatal "sourcedir is required", fs)
  else
    let outfile := if decide (outfile = "") then "merged.parquet" else outfile in
    let rfields := strings.Split requireFields ","%char in
    match findFiles env sourcedir with
    | Fatal msg => (Fatal msg, fs)
    | Done files => merge env outfile rfields files fs
    end.

(** ** Notions the properties are stated with *)

(** The table of the specification: descriptor name and canonical kind. *)
Definition canonical : list (string * parquet.Node) :=
  [ ("INT8", parquet.Optional (parquet.Int 8));
    ("INT16", parquet.Optional (parquet.Int 16));
    ("INT32", parquet.Optional (parquet.Int 32));
    ("INT64", parquet.Optional (parquet.Int 64));
    ("UINT8", parquet.Optional (parquet.Uint 8));
    ("UINT16", parquet.Optional (parquet.Uint 16));
    ("UINT32", parquet.Optional (parquet.Uint 32));
    ("UINT64", parquet.Optional (parquet.Uint 64));
    ("FLOAT", parquet.Optional (parquet.Leaf parquet.FloatType));
    ("DOUBLE", parquet.Optional (parquet.Leaf parquet.DoubleType));
    ("BOOLEAN", parquet.Optional (parquet.Leaf parquet.BooleanType));
    ("BYTE_ARRAY", parquet.Optional (parquet.Leaf parquet.ByteArrayType)) ].

(** The type a descriptor maps to; [None] for a group marker. *)
Definition element_node (d : format.SchemaElement)
    : option (result parquet.Node) :=
  typ ← format.Type_ d;
  Some (schemaTypeToNode typ (default "" (format.LogicalType d))).

(** The writer after it has taken [rows], one per call. *)
Definition accepted (writer : GenericWriter) (rows : list row) : GenericWriter :=
  {| wr_out := wr_out writer;
     wr_schema := wr_schema writer;
     wr_rows := wr_rows writer ++ rows;
     wr_calls := wr_calls writer + length rows |}.

Definition event_row (ev : parquet.ReadEvent) : option row :=
  match ev with
  | parquet.Row r => Some r
  | parquet.Corrupt _ => None
  end.

(** The records stored in the file at [file]. *)
Definition stored_rows (fs : FS) (file : string) : list row :=
  match fs !! file with
  | Some (Parquet pf) => omap event_row (parquet.data pf)
  | _ => []
  end.

(** The rows one entry of [fileSchema] contributes. *)
Definition copied_rows (fs : FS) (entry : string * parquet.Schema) : list row :=
  read_row entry.2 <$> stored_rows fs entry.1.

(** The schema [merge] records for a candidate file: the file's own, if
    its extraction succeeds and it has every required column. *)
Definition file_schema (fs : FS) (rfields : list string) (file : string)
    : option parquet.Schema :=
  match getSchemaNodes fs file with
  | Ok nodes =>
      if keep_file rfields nodes then Some (parquet.NewSchema file nodes)
      else None
  | Err _ => None
  end.

(** The retained files, each once, in input order. *)
Definition retained_files (fs : FS) (rfields files : list string)
    : list string :=
  filter (λ file, is_Some (file_schema fs rfields file)) (remove_dups files).

(** The records of [file] as a reader bound to the file's own schema yields
    them. *)
Definition rows_read (fs : FS) (file : string) : list row :=
  match getSchemaNodes fs file with
  | Ok nodes => read_row (parquet.NewSchema file nodes) <$> stored_rows fs file
  | Err _ => []
  end.


(** [file] is retained and [nodes] is its extracted schema. *)
Definition retained (fs : FS) (rfields : list string) (file : string)
    (nodes : gmap string parquet.Node) : Prop :=
  getSchemaNodes fs file = Ok nodes ∧ keep_file rfields nodes = true.

(** Some retained file among [files] binds column [k] to type [t]. *)
Definition binds (fs : FS) (rfields files : list string) (k : string)
    (t : parquet.Node) : Prop :=
  ∃ file nodes,
    file ∈ files ∧ retained fs rfields file nodes ∧ nodes !! k = Some t.

(** Two retained files among [files] bind column [k] to different types. *)
Definition conflict_on (fs : FS) (rfields files : list string) (k : string)
    : Prop :=
  ∃ t1 t2, binds fs rfields files k t1 ∧ binds fs rfields files k t2 ∧ t1 ≠ t2.

(** ** A concrete environment and concrete files, for the examples *)

(** No external call fails, and [range] visits a map in the order of
    [map_to_list]. *)
Definition plain_env (dir : list DirEntry) : Env :=
  {| range_nodes := λ _ nodes, map_to_list nodes;
     range_files := λ fileSchema, map_to_list fileSchema;
     read_dir := λ _, Ok dir;
     create_err := λ _, None;
     config_err := λ _, None;
     write_fault := λ _, None;
     close_err := None;
     encode_schema := λ _, [] |}.

Definition leaf (name typ : string) (logical : option string)
    : format.SchemaElement :=
  {| format.Name := name; format.Type_ := Some typ; format.LogicalType := logical |}.

Definition group (name : string) : format.SchemaElement :=
  {| format.Name := name; format.Type_ := None; format.LogicalType := None |}.

Definition stored (md : list format.SchemaElement) (rows : list row) : FileData :=
  Parquet {| parquet.Metadata_Schema := md; parquet.data := parquet.Row <$> rows |}.

(** [env], except that the writer's calls behave as [fault] says. *)
Definition with_write_fault (env : Env)
    (fault : nat → option (Z * option error)) : Env :=
  {| range_nodes := range_nodes env;
     range_files := range_files env;
     read_dir := read_dir env;
     create_err := create_err env;
     config_err := config_err env;
     write_fault := fault;
     close_err := close_err env;
     encode_schema := encode_schema env |}.

(** The second write reports that nothing was written. *)
Definition second_write_lost (k : nat) : option (Z * option error) :=
  if decide (k = 1%nat) then Some (0, None) else None.

(** Two files that share the column [x]. *)
Definition fileA : FileData :=
  stored [group "schema"; leaf "x" "INT64" None;
          leaf "y" "BYTE_ARRAY" (Some "STRING")]
         [ {[ "x" := VInt 5; "y" := VString "hi" ]} ].

Definition fileB : FileData :=
  stored [group "schema"; leaf "x" "INT64" None; leaf "z" "BOOLEAN" None]
         [ {[ "x" := VInt 7; "z" := VBool true ]}; {[ "x" := VInt 8 ]} ].

Definition fs0 : FS := {[ "d/a.parquet" := fileA; "d/b.parquet" := fileB ]}.

Definition files0 : list string := ["d/a.parquet"; "d/b.parquet"].

(** Two files that disagree on the type of [x], and two more that disagree
    on it with other types. *)
Definition fs_int_string : FS :=
  {[ "d/a.parquet" := stored [leaf "x" "INT64" None] [];
     "d/b.parquet" := stored [leaf "x" "BYTE_ARRAY" (Some "STRING")] [] ]}.

Definition fs_bool_double : FS :=
  {[ "d/a.parquet" := stored [leaf "x" "BOOLEAN" None] [];
     "d/b.parquet" := stored [leaf "x" "DOUBLE" None] [] ]}.

Definition dir0 : list DirEntry :=
  [ {| entry_Name := "a.parquet"; entry_IsDir := false |};
    {| entry_Name := "sub.parquet"; entry_IsDir := true |};
    {| entry_Name := "b.parquet"; entry_IsDir := false |};
    {| entry_Name := "notes.txt"; entry_IsDir := false |} ].

(** The [x] column of the records stored at [out.parquet]. *)
Definition xs (fs : FS) : list (option Value) :=
  (λ r : row, r !! "x") <$> stored_rows fs "out.parquet".

(** [plain_env], except that [range] visits [fileSchema] in the opposite
    order. *)
Definition reversed_env : Env :=
  {| range_nodes := λ _ nodes, map_to_list nodes;
     range_files := λ fileSchema, reverse (map_to_list fileSchema);
     read_dir := λ _, Ok [];
     create_err := λ _, None;
     config_err := λ _, None;
     write_fault := λ _, None;
     close_err := None;
     encode_schema := λ _, [] |}.

(** * The other programs of the repository *)

(** ** The writer program (write-read.go): [nodeFromType], [schemaFromMap]
    and [ParquetMapWriter] *)

(** The dynamic type of a Go value of type [any]; [nodeFromType] looks at
    nothing else.  [byte] is [uint8].  [go_other] stands for every type the
    switch does not list, with the name [%T] prints. *)
Inductive GoType : Type :=
  | go_int8 | go_uint8 | go_int16 | go_int32 | go_int | go_int64
  | go_float64 | go_float32 | go_string | go_bool
  | go_other (name : string).

#[global] Instance GoType_eq_dec : EqDecision GoType.
Proof. solve_decision. Defined.

Definition GoType_name (t : GoType) : string :=
  match t with
  | go_int8 => "int8" | go_uint8 => "uint8" | go_int16 => "int16"
  | go_int32 => "int32" | go_int => "int" | go_int64 => "int64"
  | go_float64 => "float64" | go_float32 => "float32"
  | go_string => "string" | go_bool => "bool"
  | go_other name => name
  end.

Definition nodeFromType (t : GoType) : result parquet.Node :=
  match t with
  | go_int8 | go_uint8 => Ok (parquet.Required (parquet.Int 8))
  | go_int16 => Ok (parquet.Required (parquet.Int 16))
  | go_int32 | go_int => Ok (parquet.Required (parquet.Int 32))
  | go_int64 => Ok (parquet.Required (parquet.Int 64))
  | go_float64 | go_float32 =>
      Ok (parquet.Required (parquet.Leaf parquet.DoubleType))
  | go_string => Ok (parquet.Required parquet.String)
  | go_bool => Ok (parquet.Required (parquet.Leaf parquet.BooleanType))
  | go_other _ => Err (ErrExternal ("unsupported type " +:+ GoType_name t))
  end.

(** [for name, t := range typemap], over the entries in the order the
    runtime chose. *)
Fixpoint schemaFromMap_loop (entries : list (string * GoType))
    (fields : gmap string parquet.Node) : result (gmap string parquet.Node) :=
  match entries with
  | [] => Ok fields
  | (name, t) :: entries' =>
      node ← nodeFromType t;
      schemaFromMap_loop entries' (<[name := node]> fields)
  end.

(** [range_typemap] is the order in which [range] visits [typemap]. *)
Definition schemaFromMap
    (range_typemap : gmap string GoType → list (string * GoType))
    (name : string) (typemap : gmap string GoType) : result parquet.Schema :=
  fields ← schemaFromMap_loop (range_typemap typemap) ∅;
  Ok (parquet.NewSchema name fields).

(** [os.Rename]; [rename_err] is the error of the call, if it fails. *)
Definition os_Rename (rename_err : option error) (oldpath newpath : string)
    (fs : FS) : option error * FS :=
  match rename_err with
  | Some err => (Some err, fs)
  | None =>
      match fs !! oldpath with
      | None => (Some (os.not_exist "rename" oldpath), fs)
      | Some d => (None, <[newpath := d]> (delete oldpath fs))
      end
  end.

Record ParquetMapWriter : Type := {
  pmw_writer : GenericWriter;
  pmw_filename : string;
  pmw_tmpname : string;
}.

Definition NewParquetMapWriter (env : Env) (filename : string)
    (schema : parquet.Schema) (fs : FS) : result ParquetMapWriter * FS :=
  let tmpname := filename +:+ ".tmp" in
  match os.Create env tmpname fs with
  | (Err err, fs) =>
      (Err (ErrExternal ("error creating file: " +:+ Error err)), fs)
  | (Ok _, fs) =>
      match config_err env schema with
      | Some err =>
          (Err (ErrExternal ("error creating writer config: " +:+ Error err)), fs)
      | None =>
          (Ok {| pmw_writer := NewGenericWriter tmpname schema;
                 pmw_filename := filename;
                 pmw_tmpname := tmpname |}, fs)
      end
  end.

Definition WriteRows (env : Env) (w : ParquetMapWriter) (rows : list row)
    : (Z * option error) * ParquetMapWriter :=
  let '(res, writer') := Writer_Write env (pmw_writer w) rows in
  (res, {| pmw_writer := writer';
           pmw_filename := pmw_filename w;
           pmw_tmpname := pmw_tmpname w |}).

Definition Close (env : Env) (rename_err : option error)
    (w : ParquetMapWriter) (fs : FS) : option error * FS :=
  match Writer_Close env (pmw_writer w) fs with
  | (Some err, fs) =>
      (Some (ErrExternal ("error closing writer: " +:+ Error err)), fs)
  | (None, fs) =>
      match os_Rename rename_err (pmw_tmpname w) (pmw_filename w) fs with
      | (Some err, fs) =>
          (Some (ErrExternal ("error renaming file: " +:+ Error err)), fs)
      | (None, fs) => (None, fs)
      end
  end.

(** ** The schema reader (get-schema.go): the loop of [getSchema] *)

(** The [switch typ] of [getSchema]. *)
Definition getSchema_node (typ logicalType : string) : result parquet.Node :=
  if decide (typ = "INT8") then Ok (parquet.Required (parquet.Int 8))
  else if decide (typ = "INT16") then Ok (parquet.Required (parquet.Int 16))
  else if decide (typ = "INT32") then Ok (parquet.Required (parquet.Int 32))
  else if decide (typ = "INT64") then Ok (parquet.Required (parquet.Int 64))
  else if decide (typ = "DOUBLE")
       then Ok (parquet.Required (parquet.Leaf parquet.DoubleType))
  else if decide (typ = "BOOLEAN")
       then Ok (parquet.Required (parquet.Leaf parquet.BooleanType))
  else if decide (typ = "BYTE_ARRAY") then
    if decide (logicalType = "STRING")
    then Ok (parquet.Required parquet.String)
    else Ok (parquet.Required (parquet.Leaf parquet.ByteArrayType))
  else Err (ErrUnsupportedType typ logicalType).

Definition getSchema_step (nodes : gmap string parquet.Node)
    (schema : format.SchemaElement) : result (gmap string parquet.Node) :=
  match format.Type_ schema with
  | None => Ok nodes
  | Some typ =>
      let logicalType := default "" (format.LogicalType schema) in
      node ← getSchema_node typ logicalType;
      Ok (<[format.Name schema := node]> nodes)
  end.

(** The loop of [getSchema] over [md.Schema]; the opening of the fixed
    file before it is not modelled. *)
Fixpoint getSchema_loop (md : list format.SchemaElement)
    (nodes : gmap string parquet.Node) : result (gmap string parquet.Node) :=
  match md with
  | [] => Ok nodes
  | schema :: md' =>
      nodes' ← getSchema_step nodes schema;
      getSchema_loop md' nodes'
  end.

(** ** The first merger (merger/merger.go) *)

Module merger.

(** [uint64] arithmetic wraps around. *)
Definition uint64 (z : Z) : Z := z mod 2 ^ 64.

Definition bToMb (b : Z) : Z := uint64 (uint64 (b / 1024) / 1024).

Definition nodemap : gmap string parquet.Node :=
  list_to_map
    [ ("INT8",       parquet.Optional (parquet.Int 8));
      ("INT16",      parquet.Optional (parquet.Int 16));
      ("INT32",      parquet.Optional (parquet.Int 32));
      ("INT64",      parquet.Optional (parquet.Int 64));
      ("DOUBLE",     parquet.Optional (parquet.Leaf parquet.DoubleType));
      ("BOOLEAN",    parquet.Optional (parquet.Leaf parquet.BooleanType));
      ("BYTE_ARRAY", parquet.Optional (parquet.Leaf parquet.ByteArrayType)) ].

Definition schemaTypeToNode (typ logical : string) : result parquet.Node :=
  if decide (logical = "STRING") then Ok string_node
  else match nodemap !! typ with
       | Some node => Ok node
       | None => Err (ErrUnsupportedType typ logical)
       end.

(** As in write-read.go, with this file's [schemaTypeToNode]; the
    [log.Printf] of a new column changes nothing. *)
Definition getSchemaNodes_step (nodes : gmap string parquet.Node)
    (schema : format.SchemaElement) : result (gmap string parquet.Node) :=
  match format.Type_ schema with
  | None => Ok nodes
  | Some typ =>
      let logicalType := default "" (format.LogicalType schema) in
      stype ← schemaTypeToNode typ logicalType;
      match nodes !! format.Name schema with
      | Some currentNode =>
          if decide (currentNode ≠ stype)
          then Err (ErrSchemaMismatch (format.Name schema))
          else Ok nodes
      | None => Ok (<[format.Name schema := stype]> nodes)
      end
  end.

Fixpoint getSchemaNodes_loop (md : list format.SchemaElement)
    (nodes : gmap string parquet.Node) : result (gmap string parquet.Node) :=
  match md with
  | [] => Ok nodes
  | schema :: md' =>
      nodes' ← getSchemaNodes_step nodes schema;
      getSchemaNodes_loop md' nodes'
  end.

Definition getSchemaNodes (fs : FS) (fname : string)
    : result (gmap string parquet.Node) :=
  _ ← os.Stat fs fname;
  r ← os.Open fs fname;
  f ← parquet_OpenFile r;
  getSchemaNodes_loop (parquet.Metadata_Schema f) ∅.

(** The first loop of [merge]: every file is kept. *)
Fixpoint merge_scan (env : Env) (fs : FS) (i : nat) (files : list string)
    (mergedSchema : gmap string parquet.Node)
    (fileSchema : gmap string parquet.Schema)
    : outcome (gmap string parquet.Node * gmap string parquet.Schema) :=
  match files with
  | [] => Done (mergedSchema, fileSchema)
  | file :: files' =>
      match getSchemaNodes fs file with
      | Err err => Fatal (Error err)
      | Ok nodes =>
          let fileSchema' := <[file := parquet.NewSchema file nodes]> fileSchema in
          match merge_nodes (range_nodes env i nodes) mergedSchema with
          | Fatal msg => Fatal msg
          | Done mergedSchema' =>
              merge_scan env fs (S i) files' mergedSchema' fileSchema'
          end
      end
  end.

(** What [fileSchema[file]] yields for a file that is not in the map: the
    nil pointer.  Every file the second loop visits has been put in the map
    by the first. *)
Definition nil_Schema : parquet.Schema := parquet.NewSchema "" ∅.

(** The second loop of [merge], over the files in input order; what
    [copyFromFile] returns is not looked at. *)
Fixpoint merge_copy (env : Env) (fs : FS) (files : list string)
    (fileSchema : gmap string parquet.Schema) (writer : GenericWriter)
    : option string * GenericWriter :=
  match files with
  | [] => (None, writer)
  | file :: files' =>
      match os.Stat fs file with
      | Err err => (Some (Error err), writer)
      | Ok _ =>
          match os.Open fs file with
          | Err err => (Some (Error err), writer)
          | Ok inf =>
              let '(_, writer') :=
                copyFromFile env inf writer
                  (default nil_Schema (fileSchema !! file)) in
              merge_copy env fs files' fileSchema writer'
          end
      end
  end.

(** The body of [merge] after the list of files. *)
Definition merge_files (env : Env) (files : list string) (fs : FS)
    : outcome unit * FS :=
  match merge_scan env fs 0 files ∅ ∅ with
  | Fatal msg => (Fatal msg, fs)
  | Done (mergedSchema, fileSchema) =>
      let schema := parquet.NewSchema "merged" mergedSchema in
      match os.Create env "merged.parquet" fs with
      | (Err err, fs) => (Fatal (Error err), fs)
      | (Ok _, fs) =>
          match config_err env schema with
          | Some err =>
              (Fatal ("error creating writer config: " +:+ Error err), fs)
          | None =>
              let writer := NewGenericWriter "merged.parquet" schema in
              match merge_copy env fs files fileSchema writer with
              | (Some msg, _) => (Fatal msg, fs)
              | (None, writer) =>
                  match Writer_Close env writer fs with
                  | (Some err, fs) =>
                      (Fatal ("error closing writer: " +:+ Error err), fs)
                  | (None, fs) => (Done (), fs)
                  end
              end
          end
      end
  end.

Definition files : list string :=
  [ "/Users/mgraff/Downloads/otel-raw-year=2024-month=05-day=10-hour=05-minute=09-metrics_1715317740000_191656998.parquet";
    "/Users/mgraff/Downloads/otel-raw-year=2024-month=05-day=10-hour=05-minute=09-metrics_1715317740000_806476119.parquet";
    "/Users/mgraff/Downloads/otel-raw-year=2024-month=05-day=10-hour=05-minute=09-metrics_1715317750000_589053731.parquet";
    "/Users/mgraff/Downloads/otel-raw-year=2024-month=05-day=10-hour=05-minute=09-metrics_1715317750000_817577671.parquet";
    "/Users/mgraff/Downloads/otel-raw-year=2024-month=05-day=10-hour=05-minute=09-metrics_1715317760000_385929257.parquet";
    "/Users/mgraff/Downloads/otel-raw-year=2024-month=05-day=10-hour=05-minute=09-metrics_1715317760000_494377519.parquet";
    "/Users/mgraff/Downloads/otel-raw-year=2024-month=05-day=10-hour=05-minute=09-metrics_1715317770000_448974791.parquet";
    "/Users/mgraff/Downloads/otel-raw-year=2024-month=05-day=10-hour=05-minute=09-metrics_1715317770000_824349254.parquet";
    "/Users/mgraff/Downloads/otel-raw-year=2024-month=05-day=10-hour=05-minute=09-metrics_1715317780000_253101403.parquet";
    "/Users/mgraff/Downloads/otel-raw-year=2024-month=05-day=10-hour=05-minute=09-metrics_1715317780000_545395187.parquet";
    "/Users/mgraff/Downloads/otel-raw-year=2024-month=05-day=10-hour=05-minute=09-metrics_1715317790000_273852496.parquet";
    "/Users/mgraff/Downloads/otel-raw-year=2024-month=05-day=10-hour=05-minute=09-metrics_1715317790000_732180120.parquet" ].

Definition merge (env : Env) (fs : FS) : outcome unit * FS :=
  merge_files env files fs.

(** The records of [file] as the copy loop reads them. *)
Definition rows_read (fs : FS) (file : string) : list row :=
  match getSchemaNodes fs file with
  | Ok nodes => read_row (parquet.NewSchema file nodes) <$> stored_rows fs file
  | Err _ => []
  end.

End merger.

(** ** More notions, for the properties beyond the specification's *)

(** A directory entry that [findFiles] keeps. *)
Definition is_parquet_entry (e : DirEntry) : bool :=
  negb (entry_IsDir e) && strings.HasSuffix (entry_Name e) ".parquet".

(** The records of an opened input, in stored order. *)
Definition input_rows (inf : FileData) : list row :=
  match inf with
  | Parquet pf => omap event_row (parquet.data pf)
  | Opaque => []
  end.

(** [fs0] with a third candidate that is not a parquet file. *)
Definition fs_with_text : FS := <["d/c.parquet" := Opaque]> fs0.

(** The writer after [WriteRows] has been called with each batch in turn. *)
Definition write_batches (env : Env) (w : ParquetMapWriter)
    (batches : list (list row)) : ParquetMapWriter :=
  foldl (λ w rows, (WriteRows env w rows).2) w batches.

(** The records stored at "merged.parquet", by their [x] column. *)
Definition merged_xs (fs : FS) : list (option Value) :=
  (λ r : row, r !! "x") <$> stored_rows fs "merged.parquet".

(** The writer is bound to the temporary file next to its final path. *)
Definition pmw_bound (w : ParquetMapWriter) : Prop :=
  pmw_tmpname w = pmw_filename w +:+ ".tmp" ∧
  wr_out (pmw_writer w) = pmw_tmpname w.

(** * Properties *)

Ltac by_computation := apply (bool_decide_unpack _); vm_compute; reflexivity.

Ltac solve_elem :=
  repeat rewrite elem_of_app; repeat rewrite elem_of_cons; intuition.

(** ** TypeMapper *)

Lemma nodemap_canonical typ node :
  (typ, node) ∈ canonical → nodemap !! typ = Some node.
Proof.
  intros Hin. change nodemap with (list_to_map canonical : gmap _ _).
  apply elem_of_list_to_map_1; [by_computation | done].
Qed.

Lemma nodemap_unrecognized typ :
  typ ∉ canonical.*1 → nodemap !! typ = None.
Proof.
  intros Hin. change nodemap with (list_to_map canonical : gmap _ _).
  by apply not_elem_of_list_to_map_1.
Qed.

(** C9. A "STRING" annotation gives the String kind whatever the raw
    descriptor is; otherwise each of the twelve recognized descriptors gives
    its canonical kind, and every other descriptor fails with the
    unsupported-type error, which carries both strings. *)
Theorem schemaTypeToNode_total_on_table (typ logical : string) :
  (logical = "STRING" →
     schemaTypeToNode typ logical = Ok (parquet.Optional parquet.String)) ∧
  (logical ≠ "STRING" → ∀ node, (typ, node) ∈ canonical →
     schemaTypeToNode typ logical = Ok node) ∧
  (logical ≠ "STRING" → typ ∉ canonical.*1 →
     schemaTypeToNode typ logical = Err (ErrUnsupportedType typ logical) ∧
     Error (ErrUnsupportedType typ logical)
       = "unsupported type: " +:+ typ +:+ ", logical " +:+ logical).
Proof.
  unfold schemaTypeToNode. split; [|split].
  - intros ->. by rewrite decide_True.
  - intros Hl node Hin. rewrite decide_False by done.
    by rewrite (nodemap_canonical _ _ Hin).
  - intros Hl Hin. rewrite decide_False by done.
    by rewrite (nodemap_unrecognized _ Hin).
Qed.

Lemma schemaTypeToNode_total_on_table_witness :
  schemaTypeToNode "INT96" "STRING" = Ok (parquet.Optional parquet.String) ∧
  schemaTypeToNode "UINT16" "" = Ok (parquet.Optional (parquet.Uint 16)) ∧
  schemaTypeToNode "INT96" "" = Err (ErrUnsupportedType "INT96" "").
Proof.
  split; [|split].
  - exact (proj1 (schemaTypeToNode_total_on_table "INT96" "STRING") eq_refl).
  - refine (proj1 (proj2 (schemaTypeToNode_total_on_table "UINT16" "")) _ _ _).
    + done.
    + by_computation.
  - refine (proj1 (proj2 (proj2 (schemaTypeToNode_total_on_table "INT96" "")) _ _)).
    + done.
    + by_computation.
Defined.

(** ** SchemaExtractor *)

Lemma getSchemaNodes_stored fs fname f :
  fs !! fname = Some (Parquet f) →
  getSchemaNodes fs fname = getSchemaNodes_loop (parquet.Metadata_Schema f) ∅.
Proof. intros Hf. unfold getSchemaNodes, os.Stat, os.Open. by rewrite Hf. Qed.

Lemma getSchemaNodes_loop_app l1 l2 nodes :
  getSchemaNodes_loop (l1 ++ l2) nodes
  = getSchemaNodes_loop l1 nodes ≫= getSchemaNodes_loop l2.
Proof.
  revert nodes. induction l1 as [|d l1 IH]; intros nodes; [done|].
  simpl. destruct (getSchemaNodes_step nodes d) as [nodes'|e]; [|done].
  apply IH.
Qed.

Lemma getSchemaNodes_step_group nodes d :
  format.Type_ d = None → getSchemaNodes_step nodes d = Ok nodes.
Proof. intros Hd. unfold getSchemaNodes_step. by rewrite Hd. Qed.

Lemma getSchemaNodes_step_leaf nodes d stype :
  element_node d = Some (Ok stype) →
  getSchemaNodes_step nodes d =
    match nodes !! format.Name d with
    | Some currentNode =>
        if decide (currentNode ≠ stype)
        then Err (ErrSchemaMismatch (format.Name d)) else Ok nodes
    | None => Ok (<[format.Name d := stype]> nodes)
    end.
Proof.
  unfold element_node, getSchemaNodes_step.
  destruct (format.Type_ d) as [typ|]; [|done]. simpl.
  intros [= ->]. done.
Qed.

(** A binding, once made, is never changed. *)
Lemma getSchemaNodes_step_keeps nodes d nodes' k t :
  getSchemaNodes_step nodes d = Ok nodes' →
  nodes !! k = Some t → nodes' !! k = Some t.
Proof.
  unfold getSchemaNodes_step. intros Hstep Hk.
  destruct (format.Type_ d) as [typ|]; [|by simplify_eq].
  destruct (schemaTypeToNode _ _) as [stype|]; [|done]. simpl in Hstep.
  destruct (nodes !! format.Name d) as [c|] eqn:Hn.
  - case_decide; by simplify_eq.
  - simplify_eq. rewrite lookup_insert_ne; [done|]. congruence.
Qed.

Lemma getSchemaNodes_loop_keeps md nodes nodes' k t :
  getSchemaNodes_loop md nodes = Ok nodes' →
  nodes !! k = Some t → nodes' !! k = Some t.
Proof.
  revert nodes. induction md as [|d md IH]; intros nodes Hloop Hk.
  - by simplify_eq/=.
  - simpl in Hloop.
    destruct (getSchemaNodes_step nodes d) as [nodes1|] eqn:Hstep; [|done].
    eapply IH; [done|]. by eapply getSchemaNodes_step_keeps.
Qed.

(** A name stays unbound as long as no leaf descriptor carries it. *)
Lemma getSchemaNodes_loop_unbound md nodes nodes' k :
  getSchemaNodes_loop md nodes = Ok nodes' →
  (∀ e, e ∈ md → format.Type_ e ≠ None → format.Name e ≠ k) →
  nodes !! k = None → nodes' !! k = None.
Proof.
  revert nodes. induction md as [|d md IH]; intros nodes Hloop Hmd Hk.
  - by simplify_eq/=.
  - simpl in Hloop.
    destruct (getSchemaNodes_step nodes d) as [nodes1|] eqn:Hstep; [|done].
    eapply IH; [done| |].
    + intros e He. apply Hmd. by right.
    + revert Hstep. unfold getSchemaNodes_step.
      destruct (format.Type_ d) as [typ|] eqn:Hd; [|by intros; simplify_eq].
      destruct (schemaTypeToNode _ _) as [stype|]; [|done]. simpl.
      destruct (nodes !! format.Name d) as [c|] eqn:Hn.
      * case_decide; by intros; simplify_eq.
      * intros; simplify_eq. rewrite lookup_insert_ne; [done|].
        apply Hmd; [by left | by rewrite Hd].
Qed.

(** C8. In one file's metadata a group marker is skipped; a repeated
    column name whose mapped type equals the first binding changes nothing,
    and one with a different mapped type makes the extraction fail with the
    schema-mismatch error for that name. *)
Theorem getSchemaNodes_repeated_column (fs : FS) (fname : string)
    (f : parquet.File) :
  fs !! fname = Some (Parquet f) →
  (∀ pre d post,
     parquet.Metadata_Schema f = pre ++ d :: post →
     format.Type_ d = None →
     getSchemaNodes fs fname = getSchemaNodes_loop (pre ++ post) ∅) ∧
  (∀ pre1 d0 pre2 d post nodes t0 t,
     parquet.Metadata_Schema f = pre1 ++ d0 :: pre2 ++ d :: post →
     (∀ e, e ∈ pre1 → format.Type_ e ≠ None → format.Name e ≠ format.Name d) →
     format.Name d0 = format.Name d →
     element_node d0 = Some (Ok t0) →
     element_node d = Some (Ok t) →
     getSchemaNodes_loop (pre1 ++ d0 :: pre2) ∅ = Ok nodes →
     (t = t0 → getSchemaNodes fs fname = getSchemaNodes_loop post nodes) ∧
     (t ≠ t0 → getSchemaNodes fs fname = Err (ErrSchemaMismatch (format.Name d)))).
Proof.
  intros Hf. rewrite (getSchemaNodes_stored _ _ _ Hf). split.
  - intros pre d post -> Hd.
    rewrite !getSchemaNodes_loop_app. simpl.
    destruct (getSchemaNodes_loop pre ∅) as [nodes|]; [|done]. simpl.
    by rewrite getSchemaNodes_step_group.
  - intros pre1 d0 pre2 d post nodes t0 t -> Hfirst Hname Hd0 Hd Hpre.
    assert (Hbound : nodes !! format.Name d = Some t0).
    { rewrite getSchemaNodes_loop_app in Hpre.
      destruct (getSchemaNodes_loop pre1 ∅) as [n1|] eqn:H1; [|done].
      simpl in Hpre.
      pose proof (getSchemaNodes_loop_unbound _ _ _ _ H1 Hfirst
                    (lookup_empty _)) as Hn1.
      rewrite (getSchemaNodes_step_leaf _ _ _ Hd0), Hname, Hn1 in Hpre.
      simpl in Hpre.
      eapply getSchemaNodes_loop_keeps; [done|]. by rewrite lookup_insert_eq. }
    replace (pre1 ++ d0 :: pre2 ++ d :: post)
      with ((pre1 ++ d0 :: pre2) ++ d :: post) by by rewrite <-app_assoc.
    rewrite getSchemaNodes_loop_app, Hpre. simpl.
    rewrite (getSchemaNodes_step_leaf _ _ _ Hd), Hbound.
    split; intros Ht.
    + subst. by rewrite decide_False by (intros ?; done).
    + by rewrite decide_True by (intros ?; done).
Qed.

Lemma getSchemaNodes_repeated_column_witness :
  getSchemaNodes
    {[ "f.parquet" :=
         stored [group "schema"; leaf "x" "INT64" None; leaf "y" "BOOLEAN" None;
                 leaf "x" "INT32" None] [] ]}
    "f.parquet"
  = Err (ErrSchemaMismatch "x").
Proof.
  refine (proj2 (proj2 (getSchemaNodes_repeated_column _ "f.parquet" _ _)
            [group "schema"] (leaf "x" "INT64" None) [leaf "y" "BOOLEAN" None]
            (leaf "x" "INT32" None) []
            {[ "x" := parquet.Optional (parquet.Int 64);
               "y" := parquet.Optional (parquet.Leaf parquet.BooleanType) ]}
            (parquet.Optional (parquet.Int 64))
            (parquet.Optional (parquet.Int 32)) _ _ _ _ _ _) _).
  - vm_compute. reflexivity.
  - reflexivity.
  - intros e He. apply list_elem_of_singleton in He as ->. intros Ht. by destruct Ht.
  - reflexivity.
  - vm_compute. reflexivity.
  - vm_compute. reflexivity.
  - vm_compute. reflexivity.
  - discriminate.
Defined.

(** ** StreamingCopier *)

(** The loop of [copyFromFile], read off the source: one [Read], then one
    [Write] of the record that was read. *)
Lemma copy_loop_Read env f writer :
  copy_loop env f writer =
    match Reader_Read f with
    | (Err err, _) =>
        if decide (err = EOF) then (None, writer) else (Some err, writer)
    | (Ok record, f') =>
        let '((n, err), writer') := Writer_Write env writer [record] in
        match err with
        | Some err => (Some err, writer')
        | None =>
            if decide (n ≠ 1) then (Some (ErrWriteCount n), writer')
            else copy_loop env f' writer'
        end
    end.
Proof. destruct f as [|[record|msg] f']; done. Qed.

Lemma accepted_nil writer : accepted writer [] = writer.
Proof.
  destruct writer. unfold accepted. simpl. f_equal; [apply app_nil_r | lia].
Qed.

Lemma accepted_cons writer r rows :
  accepted (accepted writer [r]) rows = accepted writer (r :: rows).
Proof.
  unfold accepted. simpl. f_equal; [by rewrite <-app_assoc | lia].
Qed.

Lemma accepted_app writer rows1 rows2 :
  accepted (accepted writer rows1) rows2 = accepted writer (rows1 ++ rows2).
Proof.
  unfold accepted. simpl. f_equal; [by rewrite <-app_assoc |].
  rewrite length_app. lia.
Qed.

Lemma Writer_Write_no_fault env writer r :
  write_fault env (wr_calls writer) = None →
  Writer_Write env writer [r] = ((1, None), accepted writer [r]).
Proof.
  intros Hf. unfold Writer_Write, accepted. rewrite Hf. simpl.
  do 2 f_equal. lia.
Qed.

(** Records whose writes meet no fault pass through to the writer. *)
Lemma copy_loop_rows env rows rest writer :
  (∀ i, (i < length rows)%nat → write_fault env (wr_calls writer + i) = None) →
  copy_loop env ((parquet.Row <$> rows) ++ rest) writer
  = copy_loop env rest (accepted writer rows).
Proof.
  revert writer. induction rows as [|r rows IH]; intros writer Hok.
  - by rewrite accepted_nil.
  - cbn [fmap list_fmap app copy_loop].
    rewrite Writer_Write_no_fault.
    2:{ specialize (Hok 0%nat). rewrite Nat.add_0_r in Hok. apply Hok. simpl. lia. }
    rewrite decide_False by (intros ?; done).
    change (list_fmap _ _ parquet.Row rows) with (parquet.Row <$> rows).
    rewrite IH, accepted_cons; [done|].
    intros i Hi. simpl. replace (wr_calls writer + 1 + i)%nat
      with (wr_calls writer + S i)%nat by lia.
    apply Hok. simpl. lia.
Qed.

Lemma NewReader_app pf schema pre r post :
  parquet.data pf = (parquet.Row <$> pre) ++ parquet.Row r :: post →
  ∃ post', NewReader pf schema
    = (parquet.Row <$> (read_row schema <$> pre))
        ++ parquet.Row (read_row schema r) :: post'.
Proof.
  intros Hd. unfold NewReader. rewrite Hd, fmap_app, fmap_cons.
  eexists. f_equal. rewrite <-!list_fmap_compose. by apply list_fmap_ext.
Qed.

(** C7. When the writer reports a count other than the one record it was
    given, [copyFromFile] stops at that record: it returns an error (the
    count-mismatch error when the writer gave none of its own), nothing that
    follows in the file is read or written, and [merge] prints that error
    and exits. *)
Theorem copyFromFile_count_mismatch (env : Env) (pf : parquet.File)
    (schema : parquet.Schema) (writer : GenericWriter)
    (pre : list row) (r : row) (post : list parquet.ReadEvent)
    (n : Z) (err : option error) :
  parquet.data pf = (parquet.Row <$> pre) ++ parquet.Row r :: post →
  (∀ i, (i < length pre)%nat → write_fault env (wr_calls writer + i) = None) →
  write_fault env (wr_calls writer + length pre) = Some (n, err) →
  n ≠ 1 →
  let failure := default (ErrWriteCount n) err in
  let writer' :=
    {| wr_out := wr_out writer;
       wr_schema := wr_schema writer;
       wr_rows := wr_rows writer ++ (read_row schema <$> pre)
                    ++ take (Z.to_nat n) [read_row schema r];
       wr_calls := S (wr_calls writer + length pre) |} in
  copyFromFile env (Parquet pf) writer schema = (Some failure, writer') ∧
  (err = None →
     Error failure = "expected to write 1 record, wrote " +:+ pretty n) ∧
  (∀ fs file entries,
     fs !! file = Some (Parquet pf) →
     merge_copy env fs ((file, schema) :: entries) writer
     = (Some (Error failure), writer')).
Proof.
  intros Hdata Hok Hfault Hn failure writer'.
  assert (Hcopy : copyFromFile env (Parquet pf) writer schema
                  = (Some failure, writer')).
  { unfold copyFromFile. simpl.
    destruct (NewReader_app pf schema pre r post Hdata) as [post' ->].
    rewrite copy_loop_rows by (by rewrite length_fmap).
    cbn [copy_loop]. unfold Writer_Write.
    cbn [accepted wr_calls wr_rows wr_out wr_schema].
    rewrite length_fmap, Hfault. cbn [default]. unfold id.
    cbv beta iota. subst failure writer'. rewrite <-app_assoc.
    destruct err as [e|]; [done|]. by rewrite decide_True. }
  split; [done|]. split.
  - intros ->. done.
  - intros fs file entries Hfile. cbn [merge_copy].
    unfold os.Stat, os.Open. rewrite Hfile. by rewrite Hcopy.
Qed.

Lemma copyFromFile_count_mismatch_witness :
  let env := with_write_fault (plain_env []) second_write_lost in
  let schema := parquet.NewSchema "f" {[ "x" := parquet.Optional (parquet.Int 64) ]} in
  let pf := {| parquet.Metadata_Schema := [leaf "x" "INT64" None];
               parquet.data := parquet.Row <$> [ {[ "x" := VInt 1 ]};
                                                 {[ "x" := VInt 2 ]};
                                                 {[ "x" := VInt 3 ]} ] |} in
  (copyFromFile env (Parquet pf) (NewGenericWriter "out" schema) schema).1
  = Some (ErrWriteCount 0).
Proof.
  intros env schema pf.
  refine (f_equal fst (proj1 (copyFromFile_count_mismatch env pf schema
            (NewGenericWriter "out" schema)
            [ {[ "x" := VInt 1 ]} ] {[ "x" := VInt 2 ]}
            [ parquet.Row {[ "x" := VInt 3 ]} ] 0 None _ _ _ _))).
  - reflexivity.
  - intros i Hi. simpl in Hi. destruct i as [|i]; [reflexivity | lia].
  - reflexivity.
  - lia.
Defined.

(** ** What a successful copy has written *)

Lemma omap_event_row (rows : list row) :
  omap event_row (parquet.Row <$> rows) = rows.
Proof. induction rows as [|r rows IH]; [done|]. csimpl. by rewrite IH. Qed.

Lemma copy_loop_success env f writer writer' :
  copy_loop env f writer = (None, writer') →
  ∃ rows, f = parquet.Row <$> rows ∧ writer' = accepted writer rows.
Proof.
  revert writer. induction f as [|[record|msg] f IH]; intros writer Hcopy.
  - exists []. simplify_eq/=. by rewrite accepted_nil.
  - cbn [copy_loop] in Hcopy. unfold Writer_Write in Hcopy.
    destruct (default _ (write_fault env (wr_calls writer))) as [n [err|]];
      [done|].
    case_decide as Hn; [done|]. subst n.
    apply IH in Hcopy as (rows & -> & ->). exists (record :: rows).
    split; [done|]. rewrite <-accepted_cons. f_equal.
    unfold accepted. simpl. f_equal. lia.
  - done.
Qed.

Lemma NewReader_rows pf schema rows' :
  NewReader pf schema = parquet.Row <$> rows' →
  ∃ rows, parquet.data pf = parquet.Row <$> rows
          ∧ rows' = read_row schema <$> rows.
Proof.
  unfold NewReader. generalize (parquet.data pf). intros evs. revert rows'.
  induction evs as [|[r|msg] evs IH]; intros [|r' rows'] Heq; simplify_eq/=.
  - by exists [].
  - destruct (IH rows') as (rows & -> & ->); [done|]. by exists (r :: rows).
Qed.

Lemma copyFromFile_success env inf writer schema writer' :
  copyFromFile env inf writer schema = (None, writer') →
  ∃ pf rows,
    inf = Parquet pf ∧ parquet.data pf = parquet.Row <$> rows ∧
    writer' = accepted writer (read_row schema <$> rows).
Proof.
  unfold copyFromFile. destruct inf as [|pf]; [done|]. simpl.
  intros (rows' & Hr & ->)%copy_loop_success.
  apply NewReader_rows in Hr as (rows & Hd & ->). by exists pf, rows.
Qed.

Lemma merge_copy_success env fs entries writer writer' :
  merge_copy env fs entries writer = (None, writer') →
  writer' = accepted writer (entries ≫= copied_rows fs) ∧
  Forall (λ entry, ∃ pf rows, fs !! entry.1 = Some (Parquet pf)
                     ∧ parquet.data pf = parquet.Row <$> rows) entries.
Proof.
  revert writer. induction entries as [|[file schema] entries IH];
    intros writer Hcopy.
  - simplify_eq/=. by rewrite accepted_nil.
  - cbn [merge_copy] in Hcopy. unfold os.Stat, os.Open in Hcopy.
    destruct (fs !! file) as [inf|] eqn:Hfile; [|done].
    destruct (copyFromFile env inf writer schema) as [[err|] writer1] eqn:Hc;
      [done|].
    apply copyFromFile_success in Hc as (pf & rows & -> & Hd & ->).
    apply IH in Hcopy as [-> Hall]. split.
    + rewrite accepted_app. f_equal. rewrite bind_cons. f_equal.
      unfold copied_rows, stored_rows. simpl.
      by rewrite Hfile, Hd, omap_event_row.
    + constructor; [by exists pf, rows | done].
Qed.

(** What a run of [merge] that reaches its end has done. *)
Lemma merge_Done env outfile rfields files fs fs' :
  merge env outfile rfields files fs = (Done (), fs') →
  ∃ mergedSchema fileSchema,
    merge_scan env fs rfields 0 files ∅ ∅ = Done (mergedSchema, fileSchema) ∧
    Forall (λ entry, entry.1 ≠ outfile) (range_files env fileSchema) ∧
    fs' = <[outfile :=
              Parquet
                {| parquet.Metadata_Schema :=
                     encode_schema env (parquet.NewSchema "merged" mergedSchema);
                   parquet.data :=
                     parquet.Row <$> (range_files env fileSchema ≫= copied_rows fs) |}]> fs.
Proof.
  unfold merge.
  destruct (merge_scan _ _ _ _ _ _ _) as [[mergedSchema fileSchema]|];
    [|done].
  unfold os.Create. destruct (create_err env outfile); [done|].
  destruct (config_err env _); [done|].
  destruct (merge_copy _ _ _ _) as [[msg|] writer] eqn:Hcopy; [done|].
  unfold Writer_Close. destruct (close_err env); [done|].
  intros [= <-]. apply merge_copy_success in Hcopy as [-> Hall].
  exists mergedSchema, fileSchema. split; [done|].
  assert (Hne : Forall (λ entry : string * parquet.Schema, entry.1 ≠ outfile)
                  (range_files env fileSchema)).
  { eapply Forall_impl; [exact Hall|]. intros [file schema] (pf & rows & Hf & _).
    simpl in *. intros ->. by rewrite lookup_insert_eq in Hf. }
  split; [done|]. simpl. rewrite insert_insert_eq. do 4 f_equal.
  clear Hall. induction Hne as [|[file schema] entries Hfile _ IH]; [done|].
  rewrite !bind_cons, IH. f_equal. unfold copied_rows, stored_rows. simpl in *.
  by rewrite lookup_insert_ne.
Qed.

(** ** Which files are retained *)

Lemma keep_file_spec rfields nodes :
  keep_file rfields nodes = true ↔ ∀ field, field ∈ rfields → is_Some (nodes !! field).
Proof.
  induction rfields as [|field rfields IH]; simpl.
  - split; [|done]. intros _ field Hin. by apply elem_of_nil in Hin.
  - destruct (nodes !! field) as [node|] eqn:Hf.
    + rewrite IH. split.
      * intros Hall field' [->|Hin]%elem_of_cons; [by rewrite Hf | by apply Hall].
      * intros Hall field' Hin. apply Hall. by right.
    + split; [done|]. intros Hall.
      destruct (Hall field) as [node Hnode]; [by left|]. congruence.
Qed.

Lemma merge_scan_fileSchema env fs rfields i files mergedSchema fileSchema
    mergedSchema' fileSchema' :
  merge_scan env fs rfields i files mergedSchema fileSchema
    = Done (mergedSchema', fileSchema') →
  ∀ file,
    fileSchema' !! file
    = (if decide (file ∈ files) then file_schema fs rfields file else None)
        ∪ fileSchema !! file.
Proof.
  revert i mergedSchema fileSchema.
  induction files as [|file0 files IH]; intros i mergedSchema fileSchema Hscan file.
  - injection Hscan as <- <-. rewrite decide_False by apply not_elem_of_nil.
    by destruct (fileSchema !! file).
  - cbn [merge_scan] in Hscan. unfold file_schema in *.
    destruct (getSchemaNodes fs file0) as [nodes|] eqn:Hnodes; [|done].
    destruct (keep_file rfields nodes) eqn:Hkeep.
    + destruct (merge_nodes _ _) as [mergedSchema1|]; [|done].
      rewrite (IH _ _ _ Hscan file).
      destruct (decide (file = file0)) as [->|Hne].
      * rewrite lookup_insert_eq, (decide_True (P := file0 ∈ file0 :: files))
          by by left.
        rewrite Hnodes, Hkeep. destruct (fileSchema !! file0); by case_decide.
      * rewrite lookup_insert_ne by done. f_equal.
        destruct (decide (file ∈ files)) as [Hin|Hin].
        -- rewrite decide_True; [done | by right].
        -- rewrite decide_False; [done|]. by intros [?|?]%elem_of_cons.
    + rewrite (IH _ _ _ Hscan file).
      destruct (decide (file = file0)) as [->|Hne].
      * rewrite (decide_True (P := file0 ∈ file0 :: files)) by by left.
        rewrite Hnodes, Hkeep. destruct (fileSchema !! file0); by case_decide.
      * f_equal. destruct (decide (file ∈ files)) as [Hin|Hin].
        -- rewrite decide_True; [done | by right].
        -- rewrite decide_False; [done|]. by intros [?|?]%elem_of_cons.
Qed.

Lemma merge_scan_retained env fs rfields files mergedSchema fileSchema file schema :
  merge_scan env fs rfields 0 files ∅ ∅ = Done (mergedSchema, fileSchema) →
  fileSchema !! file = Some schema
  ↔ file ∈ files ∧ file_schema fs rfields file = Some schema.
Proof.
  intros Hscan. rewrite (merge_scan_fileSchema _ _ _ _ _ _ _ _ _ Hscan file).
  rewrite lookup_empty.
  case_decide; destruct (file_schema fs rfields file); simpl;
    split; try done; try tauto; by intros [? ?].
Qed.

(** The entries of [fileSchema] are the retained files with their own
    schemas. *)
Lemma range_files_retained env fs rfields files mergedSchema fileSchema :
  fair env →
  merge_scan env fs rfields 0 files ∅ ∅ = Done (mergedSchema, fileSchema) →
  range_files env fileSchema ≫= copied_rows fs
  ≡ₚ retained_files fs rfields files ≫= rows_read fs.
Proof.
  intros [_ Hfair] Hscan. rewrite (Hfair fileSchema).
  set (entry := λ file,
         (file, default (parquet.NewSchema file ∅) (file_schema fs rfields file))).
  trans ((entry <$> retained_files fs rfields files) ≫= copied_rows fs).
  - apply bind_Permutation, NoDup_Permutation.
    + apply NoDup_map_to_list.
    + apply NoDup_fmap_2_strong.
      * intros x y _ _. unfold entry. by intros [= ->].
      * apply NoDup_filter, NoDup_remove_dups.
    + intros [file schema]. rewrite elem_of_map_to_list.
      rewrite (merge_scan_retained _ _ _ _ _ _ _ _ Hscan).
      rewrite list_elem_of_fmap. unfold retained_files, entry. split.
      * intros [Hin Hs]. exists file. rewrite Hs. split; [done|].
        apply list_elem_of_filter. rewrite elem_of_remove_dups, Hs. eauto.
      * intros (file' & [= -> ->] & [[s Hs] Hin]%list_elem_of_filter).
        rewrite elem_of_remove_dups in Hin. rewrite Hs. by split.
  - unfold retained_files.
    induction (remove_dups files) as [|file l IH]; [done|].
    rewrite filter_cons. case_decide as Hret; [|done].
    rewrite fmap_cons, !bind_cons, IH. f_equiv.
    unfold entry, copied_rows, rows_read. destruct Hret as [schema Hs].
    rewrite Hs. unfold file_schema in Hs. simpl.
    destruct (getSchemaNodes fs file) as [nodes|]; [|done].
    destruct (keep_file rfields nodes); by simplify_eq.
Qed.

Lemma length_bind {A B} (f : A → list B) (l : list A) :
  length (l ≫= f) = sum_list_with (λ x, length (f x)) l.
Proof.
  induction l as [|x l IH]; [done|]. rewrite bind_cons, length_app, IH. done.
Qed.

Lemma length_rows_read fs rfields file :
  is_Some (file_schema fs rfields file) →
  length (rows_read fs file) = length (stored_rows fs file).
Proof.
  unfold file_schema, rows_read. intros [schema Hs].
  destruct (getSchemaNodes fs file); [|done]. by rewrite length_fmap.
Qed.

(** C4. A merge that succeeds leaves at the output path a parquet file
    whose records are those read from the retained files, each exactly
    once; their number is the sum of the retained files' record counts. *)
Theorem merge_row_count (env : Env) (outfile : string)
    (rfields files : list string) (fs fs' : FS) :
  fair env →
  merge env outfile rfields files fs = (Done (), fs') →
  ∃ pf out,
    fs' !! outfile = Some (Parquet pf) ∧
    parquet.data pf = parquet.Row <$> out ∧
    out ≡ₚ retained_files fs rfields files ≫= rows_read fs ∧
    length out
    = sum_list_with (λ file, length (stored_rows fs file))
        (retained_files fs rfields files).
Proof.
  intros Hfair (mergedSchema & fileSchema & Hscan & _ & ->)%merge_Done.
  pose proof (range_files_retained _ _ _ _ _ _ Hfair Hscan) as Hperm.
  eexists _, (range_files env fileSchema ≫= copied_rows fs).
  rewrite lookup_insert_eq. split; [done|]. split; [done|].
  split; [done|]. rewrite Hperm, length_bind. clear Hperm.
  assert (Hret : Forall (λ file, is_Some (file_schema fs rfields file))
                   (retained_files fs rfields files)).
  { apply Forall_forall. by intros file [? _]%list_elem_of_filter. }
  induction Hret as [|file l Hfile _ IH]; [done|]. simpl. rewrite IH. f_equal.
  by eapply length_rows_read.
Qed.

Lemma fair_plain_env dir : fair (plain_env dir).
Proof. split; intros; reflexivity. Qed.

Lemma merge_row_count_witness :
  ∃ pf out,
    (merge (plain_env []) "out.parquet" [] files0 fs0).2 !! "out.parquet"
      = Some (Parquet pf) ∧
    parquet.data pf = parquet.Row <$> out ∧
    length out = 3%nat.
Proof.
  destruct (merge_row_count (plain_env []) "out.parquet" [] files0 fs0
              (merge (plain_env []) "out.parquet" [] files0 fs0).2)
    as (pf & out & Hout & Hdata & _ & Hlen).
  - split; intros; reflexivity.
  - vm_compute. reflexivity.
  - exists pf, out. split; [exact Hout|]. split; [exact Hdata|].
    rewrite Hlen. vm_compute. reflexivity.
Defined.

(** ** Every node of a schema is optional *)








(** ** SchemaMerger: conflicts between files *)

Lemma binds_mono fs rfields files files' k t :
  files ⊆ files' → binds fs rfields files k t → binds fs rfields files' k t.
Proof.
  intros Hsub (file & nodes & Hin & H). exists file, nodes.
  split; [by apply Hsub | done].
Qed.

Lemma merge_nodes_Done entries mergedSchema mergedSchema' :
  NoDup entries.*1 →
  merge_nodes entries mergedSchema = Done mergedSchema' →
  (∀ k v c, (k, v) ∈ entries → mergedSchema !! k = Some c → c = v) ∧
  (∀ k t, mergedSchema' !! k = Some t
          ↔ mergedSchema !! k = Some t
            ∨ (mergedSchema !! k = None ∧ (k, t) ∈ entries)).
Proof.
  revert mergedSchema.
  induction entries as [|[k0 v0] entries IH]; intros mergedSchema Hnd Hmerge.
  - injection Hmerge as <-. split.
    + intros k v c Hin. by apply elem_of_nil in Hin.
    + intros k t. split; [by left|]. intros [?|[_ Hin]]; [done|].
      by apply elem_of_nil in Hin.
  - apply NoDup_cons in Hnd as [Hk0 Hnd]. cbn [merge_nodes] in Hmerge.
    destruct (mergedSchema !! k0) as [c0|] eqn:Hc0.
    + case_decide as Hne; [done|].
      assert (c0 = v0) as -> by (by destruct (decide (c0 = v0))).
      destruct (IH _ Hnd Hmerge) as [Hcompat Hlookup]. split.
      * intros k v c [[= -> ->]|Hin]%elem_of_cons Hc; [congruence|].
        by eapply Hcompat.
      * intros k t. rewrite Hlookup. split; [|intros [?|[Hn Hin]]].
        -- intros [?|[? ?]]; [by left|]. right. split; [done | by right].
        -- by left.
        -- apply elem_of_cons in Hin as [[= -> ->]|Hin]; [congruence|].
           by right.
    + destruct (IH _ Hnd Hmerge) as [Hcompat Hlookup]. split.
      * intros k v c [[= -> ->]|Hin]%elem_of_cons Hc; [congruence|].
        eapply Hcompat; [done|]. rewrite lookup_insert_ne; [done|].
        congruence.
      * intros k t. rewrite Hlookup.
        destruct (decide (k = k0)) as [->|Hne].
        -- rewrite lookup_insert_eq, Hc0. split.
           ++ intros [[= ->]|[? _]]; [|done]. right. split; [done | by left].
           ++ intros [?|[_ [[= ->]|Hin]%elem_of_cons]]; [done|by left|].
              destruct Hk0. apply list_elem_of_fmap. by exists (k0, t).
        -- rewrite lookup_insert_ne by done.
           split; (intros [?|[Hn Hin]]; [by left|right; split; [done|]]).
           ++ by right.
           ++ apply elem_of_cons in Hin as [[= -> ->]|Hin]; done.
Qed.

Lemma merge_nodes_Fatal entries mergedSchema msg :
  NoDup entries.*1 →
  merge_nodes entries mergedSchema = Fatal msg →
  ∃ k c v, msg = "schema mismatch: " +:+ k ∧ (k, v) ∈ entries ∧
           mergedSchema !! k = Some c ∧ c ≠ v.
Proof.
  revert mergedSchema.
  induction entries as [|[k0 v0] entries IH]; intros mergedSchema Hnd Hmerge;
    [done|].
  apply NoDup_cons in Hnd as [Hk0 Hnd]. cbn [merge_nodes] in Hmerge.
  destruct (mergedSchema !! k0) as [c0|] eqn:Hc0.
  - case_decide as Hne.
    + injection Hmerge as <-. exists k0, c0, v0. split; [done|].
      split; [by left | done].
    + destruct (IH _ Hnd Hmerge) as (k & c & v & -> & Hin & Hc & Hcv).
      exists k, c, v. split; [done|]. split; [by right | done].
  - destruct (IH _ Hnd Hmerge) as (k & c & v & -> & Hin & Hc & Hcv).
    exists k, c, v. split; [done|]. split; [by right|]. split; [|done].
    rewrite lookup_insert_ne in Hc; [done|]. intros <-.
    destruct Hk0. apply list_elem_of_fmap. by exists (k0, v).
Qed.

Lemma range_nodes_entries env i nodes :
  fair env →
  NoDup (range_nodes env i nodes).*1 ∧
  ∀ k v, (k, v) ∈ range_nodes env i nodes ↔ nodes !! k = Some v.
Proof.
  intros [Hfair _]. split.
  - rewrite (Hfair i nodes). apply NoDup_fst_map_to_list.
  - intros k v. rewrite (Hfair i nodes). apply elem_of_map_to_list.
Qed.

(** The fold over the files: it stops at the first file that disagrees with
    the schema merged so far, and otherwise ends with the union of the
    retained schemas.  [seen] are the files already folded. *)
Lemma merge_scan_char env fs rfields i files mergedSchema fileSchema seen :
  fair env →
  (∀ file, file ∈ files → ∃ nodes, getSchemaNodes fs file = Ok nodes) →
  (∀ k t, mergedSchema !! k = Some t ↔ binds fs rfields seen k t) →
  match merge_scan env fs rfields i files mergedSchema fileSchema with
  | Fatal msg =>
      ∃ k, msg = "schema mismatch: " +:+ k
           ∧ conflict_on fs rfields (seen ++ files) k
  | Done (mergedSchema', _) =>
      ∀ k t, mergedSchema' !! k = Some t ↔ binds fs rfields (seen ++ files) k t
  end.
Proof.
  intros Hfair. revert i mergedSchema fileSchema seen.
  induction files as [|file files IH];
    intros i mergedSchema fileSchema seen Hextract Hinv.
  - simpl. by rewrite app_nil_r.
  - cbn [merge_scan].
    destruct (Hextract file) as [nodes Hnodes]; [by left|]. rewrite Hnodes.
    assert (Hrest : ∀ file', file' ∈ files →
                      ∃ nodes', getSchemaNodes fs file' = Ok nodes').
    { intros file' Hin. apply Hextract. by right. }
    replace (seen ++ file :: files) with ((seen ++ [file]) ++ files)
      by by rewrite <-app_assoc.
    destruct (keep_file rfields nodes) eqn:Hkeep.
    + destruct (range_nodes_entries env i nodes Hfair) as [Hnd Hentries].
      destruct (merge_nodes _ _) as [mergedSchema1|msg] eqn:Hmerge.
      * apply (IH (S i) mergedSchema1 _ (seen ++ [file]) Hrest).
        destruct (merge_nodes_Done _ _ _ Hnd Hmerge) as [Hcompat Hlookup].
        intros k t. rewrite Hlookup. split.
        -- intros [Hm|[_ Hin]].
           ++ eapply binds_mono; [|by apply Hinv]. intros x Hx. solve_elem.
           ++ exists file, nodes. split; [solve_elem|].
              split; [done | by apply Hentries].
        -- intros (file' & nodes' & [Hin|Hin]%elem_of_app & Hret & Hk).
           ++ left. apply Hinv. by exists file', nodes'.
           ++ apply list_elem_of_singleton in Hin as ->.
              destruct Hret as [Hn' _]. rewrite Hnodes in Hn'.
              injection Hn' as <-.
              destruct (mergedSchema !! k) as [c|] eqn:Hc.
              ** left. f_equal. eapply Hcompat; [by apply Hentries | done].
              ** right. split; [done | by apply Hentries].
      * destruct (merge_nodes_Fatal _ _ _ Hnd Hmerge)
          as (k & c & v & -> & Hin & Hc & Hcv).
        exists k. split; [done|]. exists c, v. split; [|split; [|done]].
        -- eapply binds_mono; [|by apply Hinv]. intros x Hx. solve_elem.
        -- exists file, nodes. split; [solve_elem|].
           split; [done | by apply Hentries].
    + apply (IH (S i) mergedSchema _ (seen ++ [file]) Hrest).
      intros k t. rewrite Hinv. split.
      * apply binds_mono. intros x Hx. solve_elem.
      * intros (file' & nodes' & [Hin|Hin]%elem_of_app & Hret & Hk).
        -- by exists file', nodes'.
        -- apply list_elem_of_singleton in Hin as ->.
           destruct Hret as [Hn' Hkeep']. rewrite Hnodes in Hn'.
           injection Hn' as <-. congruence.
Qed.

(** C3 (as the code has it). When every candidate's schema can be
    extracted: if two retained files bind a column to different types, the
    merge stops with the message "schema mismatch: " followed by the name of
    one such column, and leaves the file system as it was; if no two
    retained files disagree, the fold succeeds and the merged schema binds
    exactly the columns the retained files bind, each to its one type. *)
Theorem merge_type_conflict (env : Env) (outfile : string)
    (rfields files : list string) (fs : FS) :
  fair env →
  (∀ file, file ∈ files → ∃ nodes, getSchemaNodes fs file = Ok nodes) →
  ((∃ k, conflict_on fs rfields files k) →
     ∃ k, conflict_on fs rfields files k ∧
          merge env outfile rfields files fs
          = (Fatal ("schema mismatch: " +:+ k), fs)) ∧
  ((∀ k, ¬ conflict_on fs rfields files k) →
     ∃ mergedSchema fileSchema,
       merge_scan env fs rfields 0 files ∅ ∅ = Done (mergedSchema, fileSchema) ∧
       ∀ k t, mergedSchema !! k = Some t ↔ binds fs rfields files k t).
Proof.
  intros Hfair Hextract.
  assert (Hempty : ∀ k t, (∅ : gmap string parquet.Node) !! k = Some t
                          ↔ binds fs rfields [] k t).
  { intros k t. rewrite lookup_empty. split; [done|].
    intros (file & nodes & Hin & _). by apply elem_of_nil in Hin. }
  pose proof (merge_scan_char env fs rfields 0 files ∅ ∅ [] Hfair Hextract
                Hempty) as Hchar.
  rewrite app_nil_l in Hchar. unfold merge. split.
  - intros [k (t1 & t2 & H1 & H2 & Hne)].
    destruct (merge_scan _ _ _ _ _ _ _) as [[mergedSchema fileSchema]|msg].
    + apply Hchar in H1, H2. congruence.
    + destruct Hchar as (k' & -> & Hconflict). by exists k'.
  - intros Hnone.
    destruct (merge_scan _ _ _ _ _ _ _) as [[mergedSchema fileSchema]|msg].
    + by exists mergedSchema, fileSchema.
    + destruct Hchar as (k' & _ & Hconflict). by destruct (Hnone k').
Qed.

Lemma merge_type_conflict_witness :
  ∃ k, merge (plain_env []) "out.parquet" [] files0 fs_int_string
       = (Fatal ("schema mismatch: " +:+ k), fs_int_string).
Proof.
  destruct (proj1 (merge_type_conflict (plain_env []) "out.parquet" [] files0
                     fs_int_string
                     (conj (λ _ _, reflexivity _) (λ _, reflexivity _)) 
                     ltac:(intros file Hin; 
                           apply elem_of_cons in Hin as [->|Hin];
                           [eexists; vm_compute; reflexivity|];
                           apply list_elem_of_singleton in Hin as ->;
                           eexists; vm_compute; reflexivity)))
    as (k & _ & Hmerge).
  - exists "x", (parquet.Optional (parquet.Int 64)),
      (parquet.Optional parquet.String).
    split; [|split; [|discriminate]].
    + eexists "d/a.parquet", _. split; [by left|].
      split; [split; vm_compute; reflexivity | vm_compute; reflexivity].
    + eexists "d/b.parquet", _. split; [right; by left|].
      split; [split; vm_compute; reflexivity | vm_compute; reflexivity].
  - exists k. exact Hmerge.
Defined.

(** C3 (as stated) fails: the message of the conflict between int64 and
    string is "schema mismatch: x", and so is the message of the conflict
    between boolean and double; it names the column and no type. *)
Lemma merge_type_conflict_message_has_no_types :
  merge (plain_env []) "out.parquet" [] files0 fs_int_string
    = (Fatal "schema mismatch: x", fs_int_string) ∧
  merge (plain_env []) "out.parquet" [] files0 fs_bool_double
    = (Fatal "schema mismatch: x", fs_bool_double) ∧
  getSchemaNodes fs_int_string "d/a.parquet"
    ≠ getSchemaNodes fs_bool_double "d/a.parquet" ∧
  getSchemaNodes fs_int_string "d/b.parquet"
    ≠ getSchemaNodes fs_bool_double "d/b.parquet".
Proof.
  split; [vm_compute; reflexivity|]. split; [vm_compute; reflexivity|].
  split; vm_compute; discriminate.
Qed.

(** ** MergeOrchestrator: nothing retained *)

Lemma merge_scan_none_retained env fs rfields i files mergedSchema fileSchema :
  (∀ file, file ∈ files →
     ∃ nodes, getSchemaNodes fs file = Ok nodes
              ∧ keep_file rfields nodes = false) →
  merge_scan env fs rfields i files mergedSchema fileSchema
  = Done (mergedSchema, fileSchema).
Proof.
  revert i. induction files as [|file files IH]; intros i Hnone; [done|].
  cbn [merge_scan].
  destruct (Hnone file) as (nodes & -> & ->); [by left|].
  apply IH. intros file' Hin. apply Hnone. by right.
Qed.

Lemma findFiles_loop_no_parquet dir entries out :
  (∀ e, e ∈ entries → entry_IsDir e = false →
        strings.HasSuffix (entry_Name e) ".parquet" = false) →
  findFiles_loop dir entries out = out.
Proof.
  induction entries as [|e entries IH]; intros Hnone; [done|].
  cbn [findFiles_loop]. destruct (entry_IsDir e) eqn:Hdir.
  - apply IH. intros e' Hin. apply Hnone. by right.
  - rewrite (Hnone e) by (done || by left).
    apply IH. intros e' Hin. apply Hnone. by right.
Qed.

(** C10. When no file is retained, because every candidate lacks a
    required column or because the directory holds no parquet file, and the
    output file can be created and closed, the merge ends normally and
    leaves at the output path a parquet file with the empty schema and no
    record. *)
Theorem merge_nothing_retained (env : Env) (outfile : string) (fs : FS) :
  fair env →
  create_err env outfile = None →
  config_err env (parquet.NewSchema "merged" ∅) = None →
  close_err env = None →
  let empty_output :=
    <[outfile :=
        Parquet {| parquet.Metadata_Schema :=
                     encode_schema env (parquet.NewSchema "merged" ∅);
                   parquet.data := [] |}]> fs in
  (∀ rfields files,
     (∀ file, file ∈ files →
        ∃ nodes, getSchemaNodes fs file = Ok nodes
                 ∧ keep_file rfields nodes = false) →
     merge env outfile rfields files fs = (Done (), empty_output)) ∧
  (∀ sourcedir requireFields entries,
     sourcedir ≠ "" → outfile ≠ "" →
     read_dir env sourcedir = Ok entries →
     (∀ e, e ∈ entries → entry_IsDir e = false →
           strings.HasSuffix (entry_Name e) ".parquet" = false) →
     main env sourcedir outfile requireFields fs = (Done (), empty_output)).
Proof.
  intros [_ Hfair] Hcreate Hconfig Hclose empty_output.
  assert (Hmerge : ∀ rfields files,
     (∀ file, file ∈ files →
        ∃ nodes, getSchemaNodes fs file = Ok nodes
                 ∧ keep_file rfields nodes = false) →
     merge env outfile rfields files fs = (Done (), empty_output)).
  { intros rfields files Hnone. unfold merge.
    rewrite (merge_scan_none_retained _ _ _ _ _ _ _ Hnone).
    unfold os.Create. rewrite Hcreate, Hconfig.
    assert (range_files env ∅ = []) as ->.
    { apply Permutation_nil_r. by rewrite (Hfair ∅), map_to_list_empty. }
    cbn [merge_copy]. unfold Writer_Close. rewrite Hclose. simpl.
    by rewrite insert_insert_eq. }
  split; [done|].
  intros sourcedir requireFields entries Hsrc Hout Hdir Hnone. unfold main.
  rewrite decide_False by done. rewrite (decide_False (P := outfile = "")) by done.
  unfold findFiles, os.ReadDir. rewrite Hdir.
  rewrite (findFiles_loop_no_parquet _ _ _ Hnone).
  apply Hmerge. intros file Hin. by apply elem_of_nil in Hin.
Qed.

Lemma merge_nothing_retained_witness :
  merge (plain_env []) "out.parquet" ["w"] files0 fs0
  = (Done (),
     <["out.parquet" :=
         Parquet {| parquet.Metadata_Schema := []; parquet.data := [] |}]> fs0).
Proof.
  refine (proj1 (merge_nothing_retained (plain_env []) "out.parquet" fs0
                   _ _ _ _) ["w"] files0 _).
  - split; intros; reflexivity.
  - reflexivity.
  - reflexivity.
  - reflexivity.
  - intros file Hin. apply elem_of_cons in Hin as [->|Hin].
    + eexists. split; vm_compute; reflexivity.
    + apply list_elem_of_singleton in Hin as ->.
      eexists. split; vm_compute; reflexivity.
Defined.

(** ** Where the program departs from its specification *)

Lemma fair_reversed_env : fair reversed_env.
Proof.
  split; intros; simpl; [reflexivity | apply reverse_Permutation].
Qed.

(** [merge] creates the output file before it copies anything: whatever
    happens after [os.Create] has succeeded, the output path holds a
    file. *)
Lemma merge_creates_output_first env outfile rfields files fs
    mergedSchema fileSchema :
  merge_scan env fs rfields 0 files ∅ ∅ = Done (mergedSchema, fileSchema) →
  create_err env outfile = None →
  is_Some ((merge env outfile rfields files fs).2 !! outfile).
Proof.
  intros Hscan Hcreate. unfold merge, os.Create. rewrite Hscan, Hcreate.
  assert (Hmade : is_Some ((<[outfile := Opaque]> fs) !! outfile))
    by by rewrite lookup_insert_eq.
  destruct (config_err env _); [done|].
  destruct (merge_copy _ _ _ _) as [[msg|] writer]; [done|].
  unfold Writer_Close. destruct (close_err env); [done|]. simpl.
  apply lookup_insert_is_Some'. by right.
Qed.

(** A copy that fails leaves the file that [os.Create] made. *)
Lemma merge_copy_failure env outfile rfields files fs mergedSchema fileSchema
    msg writer :
  merge_scan env fs rfields 0 files ∅ ∅ = Done (mergedSchema, fileSchema) →
  create_err env outfile = None →
  config_err env (parquet.NewSchema "merged" mergedSchema) = None →
  merge_copy env (<[outfile := Opaque]> fs) (range_files env fileSchema)
    (NewGenericWriter outfile (parquet.NewSchema "merged" mergedSchema))
    = (Some msg, writer) →
  merge env outfile rfields files fs = (Fatal msg, <[outfile := Opaque]> fs).
Proof.
  intros Hscan Hcreate Hconfig Hcopy. unfold merge, os.Create.
  by rewrite Hscan, Hcreate, Hconfig, Hcopy.
Qed.

(** C1 (the code at a failing input). The copy of the first file fails at
    its second write; the run exits with that error, and the output path,
    which held nothing before the run, now holds a file that is not a
    parquet file.  Had the path held an earlier output, the run would have
    replaced it in the same way. *)
Theorem merge_failed_copy_leaves_output :
  let env := with_write_fault (plain_env []) second_write_lost in
  fs0 !! "out.parquet" = None ∧
  merge env "out.parquet" [] files0 fs0
    = (Fatal "expected to write 1 record, wrote 0",
       <["out.parquet" := Opaque]> fs0) ∧
  merge env "out.parquet" [] files0 (<["out.parquet" := fileA]> fs0)
    = (Fatal "expected to write 1 record, wrote 0",
       <["out.parquet" := Opaque]> fs0).
Proof.
  split; [vm_compute; reflexivity|]. split; vm_compute; reflexivity.
Qed.

(** C2 (the code at a failing input). With the required-columns flag left
    empty, [strings.Split] yields one field, the empty string; no file has a
    column of that name, so [main] excludes both candidates and writes an
    empty output.  Called with no field, [merge] retains both. *)
Theorem main_empty_flag_excludes_all :
  strings.Split "" ","%char = [""] ∧
  findFiles (plain_env dir0) "d" = Done files0 ∧
  retained_files fs0 [""] files0 = [] ∧
  main (plain_env dir0) "d" "out.parquet" "" fs0
    = (Done (),
       <["out.parquet" :=
           Parquet {| parquet.Metadata_Schema := []; parquet.data := [] |}]> fs0) ∧
  retained_files fs0 [] files0 = files0 ∧
  xs (merge (plain_env dir0) "out.parquet" [] files0 fs0).2
    = [Some (VInt 5); Some (VInt 7); Some (VInt 8)].
Proof.
  repeat split; vm_compute; reflexivity.
Qed.

(** C5 (the code at a failing input). Two runs over the same files, in
    both of which [range] visits every entry once, copy the files in
    different orders and write different outputs; the fold of the schemas
    is the same in both. *)
Theorem merge_copy_order_not_fixed :
  fair (plain_env []) ∧ fair reversed_env ∧
  merge_scan (plain_env []) fs0 [] 0 files0 ∅ ∅
    = merge_scan reversed_env fs0 [] 0 files0 ∅ ∅ ∧
  xs (merge (plain_env []) "out.parquet" [] files0 fs0).2
    = [Some (VInt 5); Some (VInt 7); Some (VInt 8)] ∧
  xs (merge reversed_env "out.parquet" [] files0 fs0).2
    = [Some (VInt 7); Some (VInt 8); Some (VInt 5)].
Proof.
  split; [apply fair_plain_env|]. split; [apply fair_reversed_env|].
  repeat split; vm_compute; reflexivity.
Qed.

(** The record of the specification's example: [x] and [y] are carried
    over, and [z], which only the other file has, is absent. *)
Example merge_record_example :
  (λ r : row, (r !! "x", r !! "y", r !! "z"))
    <$> take 1 (stored_rows (merge (plain_env []) "out.parquet" [] files0 fs0).2
                  "out.parquet")
  = [(Some (VInt 5), Some (VString "hi"), None)].
Proof. vm_compute. reflexivity. Qed.

(** * Further properties of the merge command *)

(** ** File discovery *)

Lemma findFiles_loop_spec dir entries out :
  findFiles_loop dir entries out
  = out ++ ((λ e, dir +:+ "/" +:+ entry_Name e)
              <$> filter (λ e, is_parquet_entry e = true) entries).
Proof.
  revert out. induction entries as [|e entries IH]; intros out.
  - by rewrite app_nil_r.
  - cbn [findFiles_loop]. rewrite filter_cons.
    destruct (entry_IsDir e) eqn:Hdir.
    + rewrite decide_False; [apply IH|].
      unfold is_parquet_entry. by rewrite Hdir.
    + destruct (strings.HasSuffix (entry_Name e) ".parquet") eqn:Hsuffix.
      * rewrite decide_True by (unfold is_parquet_entry; by rewrite Hdir, Hsuffix).
        rewrite IH, fmap_cons. by rewrite <-app_assoc.
      * rewrite decide_False; [apply IH|].
        unfold is_parquet_entry. by rewrite Hdir, Hsuffix.
Qed.

(** X1. [findFiles] returns, in the order of the directory listing, the
    path [dir/name] of every entry that is not a directory and whose name
    ends in ".parquet", and nothing else; when the directory cannot be read
    the process exits with that error. *)
Theorem findFiles_lists_parquet_files (env : Env) (dir : string) :
  match read_dir env dir with
  | Ok entries =>
      findFiles env dir
      = Done ((λ e, dir +:+ "/" +:+ entry_Name e)
                <$> filter (λ e, is_parquet_entry e = true) entries)
  | Err err => findFiles env dir = Fatal (Error err)
  end.
Proof.
  unfold findFiles, os.ReadDir. destruct (read_dir env dir) as [entries|err];
    [|done].
  by rewrite findFiles_loop_spec.
Qed.

(** ** Schema extraction *)

Lemma getSchemaNodes_step_bound nodes d nodes' r :
  getSchemaNodes_step nodes d = Ok nodes' →
  element_node d = Some r →
  ∃ t, r = Ok t ∧ nodes' !! format.Name d = Some t.
Proof.
  unfold getSchemaNodes_step, element_node.
  destruct (format.Type_ d) as [typ|]; [|done]. simpl.
  intros Hstep [= <-].
  destruct (schemaTypeToNode _ _) as [stype|]; [|done]. simpl in Hstep.
  exists stype. split; [done|].
  destruct (nodes !! format.Name d) as [c|] eqn:Hc.
  - case_decide as Hne; [done|]. injection Hstep as <-.
    rewrite Hc. f_equal. by destruct (decide (c = stype)).
  - injection Hstep as <-. by rewrite lookup_insert_eq.
Qed.

Lemma getSchemaNodes_loop_bound md nodes nodes' d r :
  getSchemaNodes_loop md nodes = Ok nodes' →
  d ∈ md → element_node d = Some r →
  ∃ t, r = Ok t ∧ nodes' !! format.Name d = Some t.
Proof.
  revert nodes. induction md as [|d0 md IH]; intros nodes Hloop Hin Hr.
  - by apply elem_of_nil in Hin.
  - simpl in Hloop.
    destruct (getSchemaNodes_step nodes d0) as [nodes1|] eqn:Hstep; [|done].
    simpl in Hloop. apply elem_of_cons in Hin as [->|Hin].
    + destruct (getSchemaNodes_step_bound _ _ _ _ Hstep Hr) as (t & -> & Ht).
      exists t. split; [done|]. by eapply getSchemaNodes_loop_keeps.
    + by eapply IH.
Qed.

Lemma getSchemaNodes_loop_origin md nodes nodes' k t :
  getSchemaNodes_loop md nodes = Ok nodes' →
  nodes' !! k = Some t →
  nodes !! k = Some t
  ∨ ∃ d, d ∈ md ∧ format.Name d = k ∧ element_node d = Some (Ok t).
Proof.
  revert nodes. induction md as [|d0 md IH]; intros nodes Hloop Hk.
  - left. by simplify_eq/=.
  - simpl in Hloop.
    destruct (getSchemaNodes_step nodes d0) as [nodes1|] eqn:Hstep; [|done].
    simpl in Hloop. destruct (IH _ Hloop Hk) as [H1|(d & Hin & Hname & Hd)].
    + revert Hstep. unfold getSchemaNodes_step.
      destruct (format.Type_ d0) as [typ|] eqn:Htyp;
        [|intros [= <-]; by left].
      destruct (schemaTypeToNode _ _) as [stype|] eqn:Hty; [|done]. simpl.
      destruct (nodes !! format.Name d0) as [c|] eqn:Hc.
      * case_decide; [done|]. intros [= <-]. by left.
      * intros [= <-]. destruct (decide (format.Name d0 = k)) as [Heq|Hne].
        -- right. exists d0. split; [by left|]. split; [done|].
           rewrite Heq, lookup_insert_eq in H1. injection H1 as <-.
           unfold element_node. rewrite Htyp. simpl. by rewrite Hty.
        -- left. by rewrite lookup_insert_ne in H1.
    + right. exists d. split; [by right | done].
Qed.

Lemma getSchemaNodes_loop_complete md nodes :
  (∀ d r, d ∈ md → element_node d = Some r →
     ∃ t, r = Ok t ∧ ∀ c, nodes !! format.Name d = Some c → c = t) →
  (∀ d1 d2 r1 r2, d1 ∈ md → d2 ∈ md → format.Name d1 = format.Name d2 →
     element_node d1 = Some r1 → element_node d2 = Some r2 → r1 = r2) →
  ∃ nodes', getSchemaNodes_loop md nodes = Ok nodes'.
Proof.
  revert nodes. induction md as [|d0 md IH]; intros nodes Hok Hsame.
  - by eexists.
  - simpl.
    assert (Hrest : ∀ d1 d2 r1 r2, d1 ∈ md → d2 ∈ md →
              format.Name d1 = format.Name d2 →
              element_node d1 = Some r1 → element_node d2 = Some r2 → r1 = r2).
    { intros d1 d2 r1 r2 H1 H2. apply Hsame; by right. }
    destruct (element_node d0) as [r0|] eqn:Hr0.
    + destruct (Hok d0 r0) as (t0 & -> & Hc0); [by left | done|].
      rewrite (getSchemaNodes_step_leaf _ _ _ Hr0).
      destruct (nodes !! format.Name d0) as [c|] eqn:Hc.
      * rewrite (Hc0 c eq_refl), decide_False by (intros ?; done). simpl.
        apply IH; [|done]. intros d r Hin Hr. apply Hok; [by right | done].
      * simpl. apply IH; [|done]. intros d r Hin Hr.
        destruct (Hok d r) as (t & -> & Ht); [by right | done|].
        exists t. split; [done|]. intros c.
        destruct (decide (format.Name d0 = format.Name d)) as [Heq|Hne].
        -- rewrite <-Heq, lookup_insert_eq. intros [= <-].
           assert (Ok t0 = Ok t) as [= ->]; [|done].
           eapply (Hsame d0 d); [by left | by right | done..].
        -- rewrite lookup_insert_ne by done. apply Ht.
    + rewrite getSchemaNodes_step_group.
      2:{ unfold element_node in Hr0. by destruct (format.Type_ d0). }
      simpl. apply IH; [|done]. intros d r Hin Hr. apply Hok; [by right | done].
Qed.

(** X2. [getSchemaNodes] succeeds exactly when the path holds a parquet
    file, every descriptor with a type has a supported one, and descriptors
    that share a name map to the same type. *)
Theorem getSchemaNodes_succeeds_iff (fs : FS) (fname : string) :
  (∃ nodes, getSchemaNodes fs fname = Ok nodes)
  ↔ ∃ pf,
      fs !! fname = Some (Parquet pf) ∧
      (∀ d r, d ∈ parquet.Metadata_Schema pf → element_node d = Some r →
         ∃ t, r = Ok t) ∧
      (∀ d1 d2 r1 r2,
         d1 ∈ parquet.Metadata_Schema pf → d2 ∈ parquet.Metadata_Schema pf →
         format.Name d1 = format.Name d2 →
         element_node d1 = Some r1 → element_node d2 = Some r2 → r1 = r2).
Proof.
  split.
  - intros [nodes Hnodes]. unfold getSchemaNodes, os.Stat, os.Open in Hnodes.
    destruct (fs !! fname) as [[|pf]|] eqn:Hf; [done| |done].
    simpl in Hnodes. exists pf. split; [done|]. split.
    + intros d r Hin Hr.
      destruct (getSchemaNodes_loop_bound _ _ _ _ _ Hnodes Hin Hr) as (t & -> & _).
      by exists t.
    + intros d1 d2 r1 r2 H1 H2 Hname Hr1 Hr2.
      destruct (getSchemaNodes_loop_bound _ _ _ _ _ Hnodes H1 Hr1) as (t1 & -> & Ht1).
      destruct (getSchemaNodes_loop_bound _ _ _ _ _ Hnodes H2 Hr2) as (t2 & -> & Ht2).
      congruence.
  - intros (pf & Hf & Hok & Hsame). rewrite (getSchemaNodes_stored _ _ _ Hf).
    apply getSchemaNodes_loop_complete; [|done].
    intros d r Hin Hr. destruct (Hok d r Hin Hr) as [t ->].
    exists t. split; [done|]. intros c. by rewrite lookup_empty.
Qed.

(** X3. The schema [getSchemaNodes] returns binds a name to a type exactly
    when some descriptor of the file's metadata carries that name and maps
    to that type. *)
Theorem getSchemaNodes_binds_declared_columns (fs : FS) (fname : string)
    (nodes : gmap string parquet.Node) :
  getSchemaNodes fs fname = Ok nodes →
  ∃ pf,
    fs !! fname = Some (Parquet pf) ∧
    ∀ k t, nodes !! k = Some t
           ↔ ∃ d, d ∈ parquet.Metadata_Schema pf ∧ format.Name d = k
                  ∧ element_node d = Some (Ok t).
Proof.
  intros Hnodes. unfold getSchemaNodes, os.Stat, os.Open in Hnodes.
  destruct (fs !! fname) as [[|pf]|] eqn:Hf; [done| |done].
  simpl in Hnodes. exists pf. split; [done|]. intros k t. split.
  - intros Hk.
    destruct (getSchemaNodes_loop_origin _ _ _ _ _ Hnodes Hk) as [He|Hd];
      [by rewrite lookup_empty in He | done].
  - intros (d & Hin & <- & Hd).
    destruct (getSchemaNodes_loop_bound _ _ _ _ _ Hnodes Hin Hd)
      as (t' & [= <-] & Ht). done.
Qed.

Lemma getSchemaNodes_binds_declared_columns_witness :
  ∃ pf, fs0 !! "d/a.parquet" = Some (Parquet pf) ∧
        ∃ d, d ∈ parquet.Metadata_Schema pf ∧ format.Name d = "y"
             ∧ element_node d = Some (Ok (parquet.Optional parquet.String)).
Proof.
  destruct (getSchemaNodes_binds_declared_columns fs0 "d/a.parquet"
              {[ "x" := parquet.Optional (parquet.Int 64);
                 "y" := parquet.Optional parquet.String ]})
    as (pf & Hf & Hbinds).
  - vm_compute. reflexivity.
  - exists pf. split; [exact Hf|].
    apply (proj1 (Hbinds "y" (parquet.Optional parquet.String))).
    vm_compute. reflexivity.
Defined.

(** ** The orchestrator *)

Lemma merge_scan_unreadable env fs rfields i files mergedSchema fileSchema
    file err :
  file ∈ files → getSchemaNodes fs file = Err err →
  ∃ msg, merge_scan env fs rfields i files mergedSchema fileSchema = Fatal msg.
Proof.
  revert i mergedSchema fileSchema.
  induction files as [|file0 files IH]; intros i mergedSchema fileSchema Hin Herr.
  - by apply elem_of_nil in Hin.
  - cbn [merge_scan].
    destruct (getSchemaNodes fs file0) as [nodes|err0] eqn:Hnodes;
      [|by eexists].
    apply elem_of_cons in Hin as [->|Hin]; [congruence|].
    destruct (keep_file rfields nodes); [|by apply IH].
    destruct (merge_nodes _ _); [by apply IH | by eexists].
Qed.

(** X4. If the schema of any candidate file cannot be extracted, [merge]
    exits with a fatal message before it creates anything: the file system
    is left as it was. *)
Theorem merge_aborts_on_unreadable_candidate (env : Env) (outfile : string)
    (rfields files : list string) (fs : FS) (file : string) (err : error) :
  file ∈ files →
  getSchemaNodes fs file = Err err →
  ∃ msg, merge env outfile rfields files fs = (Fatal msg, fs).
Proof.
  intros Hin Herr. unfold merge.
  destruct (merge_scan_unreadable env fs rfields 0 files ∅ ∅ file err Hin Herr)
    as [msg ->].
  by exists msg.
Qed.

Lemma merge_aborts_on_unreadable_candidate_witness :
  ∃ msg, merge (plain_env []) "out.parquet" []
           ["d/a.parquet"; "d/c.parquet"; "d/b.parquet"] fs_with_text
         = (Fatal msg, fs_with_text).
Proof.
  refine (merge_aborts_on_unreadable_candidate (plain_env []) "out.parquet" []
            ["d/a.parquet"; "d/c.parquet"; "d/b.parquet"] fs_with_text
            "d/c.parquet" (ErrExternal "invalid parquet file") _ _).
  - right. left.
  - vm_compute. reflexivity.
Defined.

Lemma copy_loop_wr_out env f writer err writer' :
  copy_loop env f writer = (err, writer') →
  wr_out writer' = wr_out writer ∧ wr_schema writer' = wr_schema writer.
Proof.
  revert writer. induction f as [|[record|msg] f IH]; intros writer Hcopy.
  - by simplify_eq/=.
  - cbn [copy_loop] in Hcopy. unfold Writer_Write in Hcopy.
    destruct (default _ (write_fault env (wr_calls writer))) as [n [e|]].
    + by simplify_eq/=.
    + case_decide; [by simplify_eq/=|].
      by destruct (IH _ Hcopy) as [-> ->].
  - by simplify_eq/=.
Qed.

Lemma copyFromFile_wr_out env inf writer schema err writer' :
  copyFromFile env inf writer schema = (err, writer') →
  wr_out writer' = wr_out writer ∧ wr_schema writer' = wr_schema writer.
Proof.
  unfold copyFromFile. destruct (parquet_OpenFile inf); [|by intros [= <- <-]].
  apply copy_loop_wr_out.
Qed.




(** X6. When the output path is itself one of the retained input files,
    [merge] cannot succeed: [os.Create] truncates that input before it is
    copied, the copy phase fails, and the input is left truncated. *)
Theorem merge_output_among_inputs (env : Env) (outfile : string)
    (rfields files : list string) (fs : FS)
    (mergedSchema : gmap string parquet.Node)
    (fileSchema : gmap string parquet.Schema) :
  fair env →
  merge_scan env fs rfields 0 files ∅ ∅ = Done (mergedSchema, fileSchema) →
  is_Some (fileSchema !! outfile) →
  create_err env outfile = None →
  ∃ msg, merge env outfile rfields files fs
         = (Fatal msg, <[outfile := Opaque]> fs).
Proof.
  intros [_ Hfair] Hscan [schema Hout] Hcreate. unfold merge, os.Create.
  rewrite Hscan, Hcreate. destruct (config_err env _); [by eexists|].
  destruct (merge_copy _ _ _ _) as [[msg|] writer] eqn:Hcopy; [by eexists|].
  apply merge_copy_success in Hcopy as [_ Hall].
  assert (Hin : (outfile, schema) ∈ range_files env fileSchema).
  { rewrite (Hfair fileSchema). by apply elem_of_map_to_list. }
  destruct (proj1 (Forall_forall _ _) Hall _ Hin) as (pf & rows & Hf & _).
  simpl in Hf. by rewrite lookup_insert_eq in Hf.
Qed.

Lemma merge_output_among_inputs_witness :
  ∃ msg, merge (plain_env []) "d/a.parquet" [] files0 fs0
         = (Fatal msg, <["d/a.parquet" := Opaque]> fs0).
Proof.
  refine (merge_output_among_inputs (plain_env []) "d/a.parquet" [] files0 fs0
            _ _ _ _ _ _).
  - split; intros; reflexivity.
  - vm_compute. reflexivity.
  - vm_compute. eexists. reflexivity.
  - reflexivity.
Defined.

Lemma merge_scan_Done_extracts env fs rfields i files mergedSchema fileSchema
    result :
  merge_scan env fs rfields i files mergedSchema fileSchema = Done result →
  ∀ file, file ∈ files → ∃ nodes, getSchemaNodes fs file = Ok nodes.
Proof.
  intros Hscan file Hin.
  destruct (getSchemaNodes fs file) as [nodes|err] eqn:Hnodes; [by eexists|].
  destruct (merge_scan_unreadable env fs rfields i files mergedSchema
              fileSchema file err Hin Hnodes) as [msg Hmsg].
  congruence.
Qed.

Lemma binds_same_files fs rfields files files' k t :
  (∀ file, file ∈ files ↔ file ∈ files') →
  binds fs rfields files k t ↔ binds fs rfields files' k t.
Proof.
  intros Hsame. split; apply binds_mono; intros file; apply Hsame.
Qed.

(** X7. The result of the schema phase depends neither on the order in
    which the candidate files are listed nor on the order in which [range]
    visits the columns of a file: if it succeeds for one listing, it
    succeeds with the same merged schema and the same per-file schemas for
    every listing of the same files. *)
Theorem merge_scan_order_independent (env1 env2 : Env) (fs : FS)
    (rfields files files' : list string)
    (mergedSchema : gmap string parquet.Node)
    (fileSchema : gmap string parquet.Schema) :
  fair env1 → fair env2 →
  (∀ file, file ∈ files ↔ file ∈ files') →
  merge_scan env1 fs rfields 0 files ∅ ∅ = Done (mergedSchema, fileSchema) →
  merge_scan env2 fs rfields 0 files' ∅ ∅ = Done (mergedSchema, fileSchema).
Proof.
  intros Hfair1 Hfair2 Hsame Hscan.
  pose proof (merge_scan_Done_extracts _ _ _ _ _ _ _ _ Hscan) as Hextract.
  assert (Hextract' : ∀ file, file ∈ files' →
             ∃ nodes, getSchemaNodes fs file = Ok nodes).
  { intros file Hin. apply Hextract. by apply Hsame. }
  assert (Hempty : ∀ k t, (∅ : gmap string parquet.Node) !! k = Some t
                          ↔ binds fs rfields [] k t).
  { intros k t. rewrite lookup_empty. split; [done|].
    intros (file & nodes & Hin & _). by apply elem_of_nil in Hin. }
  pose proof (merge_scan_char env1 fs rfields 0 files ∅ ∅ [] Hfair1 Hextract
                Hempty) as Hchar1.
  pose proof (merge_scan_char env2 fs rfields 0 files' ∅ ∅ [] Hfair2 Hextract'
                Hempty) as Hchar2.
  rewrite Hscan in Hchar1. rewrite app_nil_l in Hchar1, Hchar2.
  destruct (merge_scan env2 fs rfields 0 files' ∅ ∅)
    as [[mergedSchema' fileSchema']|msg] eqn:Hscan'.
  - f_equal. f_equal.
    + apply map_eq. intros k. apply option_eq. intros t.
      by rewrite Hchar1, Hchar2, (binds_same_files _ _ _ _ _ _ Hsame).
    + apply map_eq. intros file.
      rewrite (merge_scan_fileSchema _ _ _ _ _ _ _ _ _ Hscan file).
      rewrite (merge_scan_fileSchema _ _ _ _ _ _ _ _ _ Hscan' file).
      f_equal. destruct (decide (file ∈ files)) as [Hin|Hin].
      * by rewrite decide_True by by apply Hsame.
      * rewrite decide_False; [done|]. by rewrite <-Hsame.
  - destruct Hchar2 as (k & _ & t1 & t2 & H1 & H2 & Hne).
    apply (binds_same_files _ _ _ _ _ _ Hsame), Hchar1 in H1, H2. congruence.
Qed.

Lemma merge_scan_order_independent_witness :
  merge_scan reversed_env fs0 ["x"] 0 ["d/b.parquet"; "d/a.parquet"] ∅ ∅
  = merge_scan (plain_env []) fs0 ["x"] 0 files0 ∅ ∅.
Proof.
  destruct (merge_scan (plain_env []) fs0 ["x"] 0 files0 ∅ ∅)
    as [[mergedSchema fileSchema]|msg] eqn:Hscan.
  - refine (merge_scan_order_independent (plain_env []) reversed_env fs0 ["x"]
              files0 ["d/b.parquet"; "d/a.parquet"] mergedSchema fileSchema
              _ _ _ Hscan).
    + split; intros; reflexivity.
    + split; intros; simpl; [reflexivity | apply reverse_Permutation].
    + intros file. unfold files0. rewrite !elem_of_cons, !elem_of_nil. tauto.
  - vm_compute in Hscan. discriminate Hscan.
Defined.

(** X8. After a successful schema phase a file is in [fileSchema] exactly
    when it is a candidate whose extracted schema has every required
    column, and it is recorded with that schema under its own path. *)
Theorem merge_scan_keeps_files_with_required_columns (env : Env) (fs : FS)
    (rfields files : list string) (mergedSchema : gmap string parquet.Node)
    (fileSchema : gmap string parquet.Schema) (file : string)
    (schema : parquet.Schema) :
  merge_scan env fs rfields 0 files ∅ ∅ = Done (mergedSchema, fileSchema) →
  fileSchema !! file = Some schema
  ↔ file ∈ files ∧
    ∃ nodes, getSchemaNodes fs file = Ok nodes ∧
             (∀ field, field ∈ rfields → is_Some (nodes !! field)) ∧
             schema = parquet.NewSchema file nodes.
Proof.
  intros Hscan. rewrite (merge_scan_retained _ _ _ _ _ _ _ _ Hscan).
  unfold file_schema. split.
  - intros [Hin Hs]. split; [done|].
    destruct (getSchemaNodes fs file) as [nodes|]; [|done].
    destruct (keep_file rfields nodes) eqn:Hkeep; [|done].
    injection Hs as <-. exists nodes. split; [done|].
    split; [by apply keep_file_spec | done].
  - intros [Hin (nodes & -> & Hall & ->)]. split; [done|].
    by rewrite (proj2 (keep_file_spec rfields nodes) Hall).
Qed.

Lemma merge_scan_keeps_files_with_required_columns_witness :
  match merge_scan (plain_env []) fs0 ["z"] 0 files0 ∅ ∅ with
  | Done (_, fileSchema) => is_Some (fileSchema !! "d/b.parquet")
  | Fatal _ => False
  end.
Proof.
  destruct (merge_scan (plain_env []) fs0 ["z"] 0 files0 ∅ ∅)
    as [[mergedSchema fileSchema]|msg] eqn:Hscan.
  - eexists.
    apply (proj2 (merge_scan_keeps_files_with_required_columns (plain_env [])
                    fs0 ["z"] files0 mergedSchema fileSchema "d/b.parquet"
                    _ Hscan)).
    split; [right; left|]. eexists. split; [vm_compute; reflexivity|].
    split; [|reflexivity].
    intros field Hin. apply list_elem_of_singleton in Hin as ->.
    vm_compute. eexists. reflexivity.
  - vm_compute in Hscan. discriminate Hscan.
Defined.

(** ** The copier *)

(** X9. When a file's data cannot be read at some point, [copyFromFile]
    returns the reader's error; the records before that point have been
    handed to the writer, one write each, and nothing after it has. *)
Theorem copyFromFile_read_error (env : Env) (pf : parquet.File)
    (schema : parquet.Schema) (writer : GenericWriter) (pre : list row)
    (msg : string) (post : list parquet.ReadEvent) :
  parquet.data pf = (parquet.Row <$> pre) ++ parquet.Corrupt msg :: post →
  (∀ i, (i < length pre)%nat → write_fault env (wr_calls writer + i) = None) →
  copyFromFile env (Parquet pf) writer schema
  = (Some (ErrExternal msg), accepted writer (read_row schema <$> pre)).
Proof.
  intros Hdata Hok. unfold copyFromFile, NewReader. simpl.
  rewrite Hdata, fmap_app, fmap_cons, <-list_fmap_compose.
  rewrite (list_fmap_ext _ (parquet.Row ∘ read_row schema) pre) by done.
  rewrite list_fmap_compose.
  rewrite copy_loop_rows by (by rewrite length_fmap). done.
Qed.

Lemma copyFromFile_read_error_witness :
  let schema := parquet.NewSchema "f" {[ "x" := parquet.Optional (parquet.Int 64) ]} in
  let pf := {| parquet.Metadata_Schema := [leaf "x" "INT64" None];
               parquet.data := [ parquet.Row {[ "x" := VInt 1 ]};
                                 parquet.Corrupt "bad page";
                                 parquet.Row {[ "x" := VInt 3 ]} ] |} in
  (copyFromFile (plain_env []) (Parquet pf) (NewGenericWriter "out" schema)
     schema).1
  = Some (ErrExternal "bad page").
Proof.
  intros schema pf.
  refine (f_equal fst (copyFromFile_read_error (plain_env []) pf schema
            (NewGenericWriter "out" schema) [ {[ "x" := VInt 1 ]} ] "bad page"
            [ parquet.Row {[ "x" := VInt 3 ]} ] _ _)).
  - reflexivity.
  - intros i Hi. reflexivity.
Defined.

Lemma copy_loop_prefix env f writer err writer' :
  copy_loop env f writer = (err, writer') →
  ∃ k, wr_rows writer' = wr_rows writer ++ take k (omap event_row f).
Proof.
  revert writer. induction f as [|[record|msg] f IH]; intros writer Hcopy.
  - exists 0%nat. simplify_eq/=. by rewrite app_nil_r.
  - cbn [copy_loop] in Hcopy. unfold Writer_Write in Hcopy.
    destruct (default _ (write_fault env (wr_calls writer))) as [n e].
    assert (Hone : ∃ k, take (Z.to_nat n) [record]
                        = take k (omap event_row (parquet.Row record :: f))).
    { destruct (Z.to_nat n) as [|m]; [by exists 0%nat|].
      exists 1%nat. csimpl. by rewrite take_nil. }
    destruct e as [e|].
    + injection Hcopy as _ <-. destruct Hone as [k Hk]. exists k.
      simpl. by rewrite Hk.
    + case_decide as Hn.
      * injection Hcopy as _ <-. destruct Hone as [k Hk]. exists k.
        simpl. by rewrite Hk.
      * subst n. destruct (IH _ Hcopy) as [k Hk]. exists (S k).
        rewrite Hk. simpl. by rewrite <-app_assoc.
  - exists 0%nat. simplify_eq/=. by rewrite app_nil_r.
Qed.

Lemma omap_event_row_NewReader pf schema :
  omap event_row (NewReader pf schema)
  = read_row schema <$> omap event_row (parquet.data pf).
Proof.
  unfold NewReader. induction (parquet.data pf) as [|[r|msg] evs IH];
    [done| |done].
  csimpl. by rewrite IH.
Qed.

(** X10. Whatever [copyFromFile] returns, it has only appended to what the
    writer held: the rows it added are a prefix, in stored order, of the
    file's records as the reader yields them, so no record is skipped in
    the middle; the writer stays bound to its file and its schema. *)
Theorem copyFromFile_appends_a_prefix (env : Env) (inf : FileData)
    (writer : GenericWriter) (schema : parquet.Schema) :
  let '(err, writer') := copyFromFile env inf writer schema in
  wr_out writer' = wr_out writer ∧
  wr_schema writer' = wr_schema writer ∧
  ∃ k, wr_rows writer'
       = wr_rows writer ++ take k (read_row schema <$> input_rows inf).
Proof.
  destruct (copyFromFile env inf writer schema) as [err writer'] eqn:Hcopy.
  destruct (copyFromFile_wr_out _ _ _ _ _ _ Hcopy) as [Hout Hschema].
  split; [done|]. split; [done|].
  unfold copyFromFile in Hcopy. destruct inf as [|pf]; simpl in *.
  - exists 0%nat. injection Hcopy as _ <-. by rewrite app_nil_r.
  - rewrite <-omap_event_row_NewReader. by eapply copy_loop_prefix.
Qed.

(** * The writer program *)

Lemma nodeFromType_Required t node :
  nodeFromType t = Ok node → ∃ n, node = parquet.Required n.
Proof. destruct t; intros [= <-]; by eexists. Qed.

Lemma schemaFromMap_loop_Ok entries fields :
  NoDup entries.*1 →
  (∀ name t, (name, t) ∈ entries → ∃ node, nodeFromType t = Ok node) →
  ∃ fields',
    schemaFromMap_loop entries fields = Ok fields' ∧
    ∀ name,
      fields' !! name
      = match list_find (λ e, e.1 = name) entries with
        | Some (_, (_, t)) =>
            match nodeFromType t with Ok node => Some node | Err _ => None end
        | None => fields !! name
        end.
Proof.
  revert fields. induction entries as [|[name0 t0] entries IH];
    intros fields Hnd Hok.
  - by exists fields.
  - apply NoDup_cons in Hnd as [Hfresh Hnd]. cbn [schemaFromMap_loop].
    destruct (Hok name0 t0) as [node0 Hnode0]; [by left|].
    rewrite Hnode0. simpl.
    destruct (IH (<[name0 := node0]> fields) Hnd) as (fields' & -> & Hlookup).
    { intros name t Hin. apply (Hok name t). by right. }
    exists fields'. split; [done|]. intros name. rewrite Hlookup.
    cbn [list_find]. simpl. destruct (decide (name0 = name)) as [->|Hne].
    + simpl. rewrite Hnode0.
      destruct (list_find _ entries) as [[i [name' t']]|] eqn:Hfind.
      * apply list_find_Some in Hfind as (Hi & Hname & _). simpl in Hname.
        subst name'. destruct Hfresh. apply list_elem_of_fmap.
        exists (name, t'). split; [done|]. by eapply list_elem_of_lookup_2.
      * simpl. by rewrite lookup_insert_eq.
    + destruct (list_find _ entries) as [[i [name' t']]|]; simpl; [done|].
      by rewrite lookup_insert_ne.
Qed.

Lemma schemaFromMap_loop_Err entries fields k t :
  (k, t) ∈ entries → (∀ node, nodeFromType t ≠ Ok node) →
  ∃ err, schemaFromMap_loop entries fields = Err err.
Proof.
  revert fields. induction entries as [|[k0 t0] entries IH];
    intros fields Hkt Hbad.
  - by apply elem_of_nil in Hkt.
  - cbn [schemaFromMap_loop].
    destruct (nodeFromType t0) as [node0|err0] eqn:Hnode0; [|by eexists].
    simpl. apply elem_of_cons in Hkt as [[= -> ->]|Hkt].
    + by destruct (Hbad node0).
    + by apply IH.
Qed.

(** X11. Whatever order [range] visits the type map in, [schemaFromMap]
    succeeds when every value has one of the types [nodeFromType] lists,
    and the schema then has exactly the keys of the type map, each bound to
    a [parquet.Required] node, the one [nodeFromType] gives for its value;
    it fails as soon as a value of another type is in the map. *)
Theorem schemaFromMap_spec
    (range_typemap : gmap string GoType → list (string * GoType))
    (name : string) (typemap : gmap string GoType) :
  range_typemap typemap ≡ₚ map_to_list typemap →
  ((∀ k t, typemap !! k = Some t → ∃ node, nodeFromType t = Ok node) →
     ∃ fields,
       schemaFromMap range_typemap name typemap
         = Ok (parquet.NewSchema name fields) ∧
       (∀ k, is_Some (fields !! k) ↔ is_Some (typemap !! k)) ∧
       (∀ k t, typemap !! k = Some t →
          ∃ n, fields !! k = Some (parquet.Required n)
               ∧ nodeFromType t = Ok (parquet.Required n))) ∧
  ((∃ k t, typemap !! k = Some t ∧ ∀ node, nodeFromType t ≠ Ok node) →
     ∃ err, schemaFromMap range_typemap name typemap = Err err).
Proof.
  intros Hperm.
  assert (Hin : ∀ k t, (k, t) ∈ range_typemap typemap ↔ typemap !! k = Some t).
  { intros k t. rewrite Hperm. apply elem_of_map_to_list. }
  assert (Hnd : NoDup (range_typemap typemap).*1).
  { rewrite Hperm. apply NoDup_fst_map_to_list. }
  unfold schemaFromMap. split.
  - intros Hok.
    destruct (schemaFromMap_loop_Ok (range_typemap typemap) ∅ Hnd)
      as (fields & -> & Hlookup).
    { intros k t Hkt. apply (Hok k t). by apply Hin. }
    exists fields. split; [done|].
    assert (Hfield : ∀ k t, typemap !! k = Some t →
              ∃ n, fields !! k = Some (parquet.Required n)
                   ∧ nodeFromType t = Ok (parquet.Required n)).
    { intros k t Hkt. rewrite Hlookup.
      destruct (list_find _ _) as [[i [k' t']]|] eqn:Hfind.
      - apply list_find_Some in Hfind as (Hi & Hname & _). simpl in Hname.
        subst k'. apply list_elem_of_lookup_2, Hin in Hi.
        assert (t' = t) as -> by congruence.
        destruct (Hok k t Hkt) as [node Hnode].
        destruct (nodeFromType_Required _ _ Hnode) as [n ->].
        exists n. by rewrite Hnode.
      - apply list_find_None in Hfind. apply Hin in Hkt.
        by destruct (proj1 (Forall_forall _ _) Hfind _ Hkt). }
    split; [|done]. intros k. split.
    + intros [node Hnode]. rewrite Hlookup in Hnode.
      destruct (list_find _ _) as [[i [k' t']]|] eqn:Hfind;
        [|by rewrite lookup_empty in Hnode].
      apply list_find_Some in Hfind as (Hi & Hname & _). simpl in Hname.
      subst k'. apply list_elem_of_lookup_2, Hin in Hi. by eexists.
    + intros [t Hkt]. destruct (Hfield k t Hkt) as (n & -> & _). by eexists.
  - intros (k & t & Hkt & Hbad). apply Hin in Hkt.
    destruct (schemaFromMap_loop_Err _ ∅ k t Hkt Hbad) as [err ->].
    by exists err.
Qed.

Lemma schemaFromMap_spec_witness :
  ∃ fields,
    schemaFromMap map_to_list "schema"
      {[ "timestamp" := go_int64; "value" := go_float64; "_id" := go_string ]}
    = Ok (parquet.NewSchema "schema" fields).
Proof.
  destruct (proj1 (schemaFromMap_spec map_to_list "schema"
                     {[ "timestamp" := go_int64; "value" := go_float64;
                        "_id" := go_string ]} (reflexivity _)))
    as (fields & Hschema & _).
  - intros k t Hkt. destruct t; try by eexists.
    apply elem_of_map_to_list in Hkt. vm_compute in Hkt.
    repeat (apply elem_of_cons in Hkt as [Hkt|Hkt]; [discriminate Hkt|]).
    by apply elem_of_nil in Hkt.
  - exists fields. exact Hschema.
Defined.

Lemma tmpname_fresh (filename : string) : filename ≠ filename +:+ ".tmp".
Proof.
  induction filename as [|a filename IH]; [done|].
  simpl. intros [= Heq]. by apply IH.
Qed.

Lemma WriteRows_bound env w rows :
  pmw_bound w →
  pmw_bound (WriteRows env w rows).2
  ∧ pmw_filename (WriteRows env w rows).2 = pmw_filename w
  ∧ wr_schema (pmw_writer (WriteRows env w rows).2) = wr_schema (pmw_writer w).
Proof.
  intros [Htmp Hout]. unfold WriteRows, Writer_Write, pmw_bound.
  by destruct (default _ _) as [n e].
Qed.

Lemma write_batches_bound env w batches :
  pmw_bound w →
  pmw_bound (write_batches env w batches)
  ∧ pmw_filename (write_batches env w batches) = pmw_filename w
  ∧ wr_schema (pmw_writer (write_batches env w batches))
    = wr_schema (pmw_writer w).
Proof.
  revert w. induction batches as [|rows batches IH]; intros w Hw; [done|].
  unfold write_batches. simpl. fold (write_batches env (WriteRows env w rows).2 batches).
  destruct (WriteRows_bound env w rows Hw) as (Hw1 & Hname & Hschema).
  destruct (IH _ Hw1) as (Hw2 & Hname2 & Hschema2).
  split; [done|]. split; congruence.
Qed.

Lemma NewParquetMapWriter_Ok env filename schema fs w fs1 :
  NewParquetMapWriter env filename schema fs = (Ok w, fs1) →
  pmw_bound w ∧ pmw_filename w = filename ∧
  wr_schema (pmw_writer w) = schema ∧ wr_rows (pmw_writer w) = [] ∧
  wr_calls (pmw_writer w) = 0%nat ∧
  fs1 = <[filename +:+ ".tmp" := Opaque]> fs.
Proof.
  unfold NewParquetMapWriter, os.Create.
  destruct (create_err env _); [done|]. destruct (config_err env _); [done|].
  intros [= <- <-]. done.
Qed.

(** X12. A [ParquetMapWriter] publishes on a successful [Close] only:
    creating it leaves the final path as it was, and so does every [Close]
    that returns an error, whatever was written in between. *)
Theorem ParquetMapWriter_final_path_untouched (env : Env)
    (rename_err : option error) (filename : string) (schema : parquet.Schema)
    (fs : FS) :
  match NewParquetMapWriter env filename schema fs with
  | (Err _, fs1) => fs1 !! filename = fs !! filename
  | (Ok w, fs1) =>
      fs1 !! filename = fs !! filename ∧
      ∀ batches,
        match Close env rename_err (write_batches env w batches) fs1 with
        | (Some _, fs2) => fs2 !! filename = fs !! filename
        | (None, _) => True
        end
  end.
Proof.
  destruct (NewParquetMapWriter env filename schema fs) as [[w|err] fs1] eqn:Hnew.
  - apply NewParquetMapWriter_Ok in Hnew as (Hw & Hname & _ & _ & _ & ->).
    assert (Hfresh : <[filename +:+ ".tmp" := Opaque]> fs !! filename
                     = fs !! filename).
    { rewrite lookup_insert_ne; [done|]. intros Heq.
      by apply (tmpname_fresh filename). }
    split; [done|]. intros batches.
    destruct (write_batches_bound env w batches Hw) as ([Htmp Hout] & Hname' & _).
    unfold Close, Writer_Close. destruct (close_err env); [done|].
    unfold os_Rename. destruct rename_err.
    + rewrite Hout, Htmp, Hname', Hname.
      rewrite lookup_insert_ne; [done|]. intros Heq.
      by apply (tmpname_fresh filename).
    + rewrite Hout, lookup_insert_eq. done.
  - revert Hnew. unfold NewParquetMapWriter, os.Create.
    destruct (create_err env _); [by intros [= _ <-]|].
    destruct (config_err env _); [|done]. intros [= _ <-].
    rewrite lookup_insert_ne; [done|]. intros Heq.
    by apply (tmpname_fresh filename).
Qed.

Lemma write_batches_rows env w batches :
  (∀ k, write_fault env k = None) →
  wr_rows (pmw_writer (write_batches env w batches))
  = wr_rows (pmw_writer w) ++ concat batches.
Proof.
  intros Hok. revert w. induction batches as [|rows batches IH]; intros w.
  - simpl. by rewrite app_nil_r.
  - unfold write_batches. simpl.
    fold (write_batches env (WriteRows env w rows).2 batches).
    rewrite IH. unfold WriteRows, Writer_Write. rewrite Hok. simpl.
    rewrite Nat2Z.id, firstn_all, <-app_assoc. done.
Qed.

(** X13. When the temporary file can be created and nothing fails, what
    was written comes back from the final path: after [Close] it holds a
    parquet file with the writer's schema and the rows of all [WriteRows]
    calls in order, the temporary file is gone, and no other path has
    changed. *)
Theorem ParquetMapWriter_publishes_rows (env : Env) (filename : string)
    (schema : parquet.Schema) (fs : FS) (batches : list (list row)) :
  create_err env (filename +:+ ".tmp") = None →
  config_err env schema = None →
  (∀ k, write_fault env k = None) →
  close_err env = None →
  ∃ w fs1,
    NewParquetMapWriter env filename schema fs = (Ok w, fs1) ∧
    Close env None (write_batches env w batches) fs1
    = (None,
       <[filename :=
           Parquet {| parquet.Metadata_Schema := encode_schema env schema;
                      parquet.data := parquet.Row <$> concat batches |}]>
         (delete (filename +:+ ".tmp") fs)) ∧
    stored_rows
      (Close env None (write_batches env w batches) fs1).2 filename
    = concat batches.
Proof.
  intros Hcreate Hconfig Hwrite Hclose.
  destruct (NewParquetMapWriter env filename schema fs) as [[w|err] fs1] eqn:Hnew.
  2:{ revert Hnew. unfold NewParquetMapWriter, os.Create.
      by rewrite Hcreate, Hconfig. }
  exists w, fs1. split; [done|].
  apply NewParquetMapWriter_Ok in Hnew
    as (Hw & Hname & Hschema & Hrows & _ & ->).
  destruct (write_batches_bound env w batches Hw)
    as ([Htmp Hout] & Hname' & Hschema').
  assert (Hresult : Close env None (write_batches env w batches)
                      (<[filename +:+ ".tmp" := Opaque]> fs)
    = (None,
       <[filename :=
           Parquet {| parquet.Metadata_Schema := encode_schema env schema;
                      parquet.data := parquet.Row <$> concat batches |}]>
         (delete (filename +:+ ".tmp") fs))).
  { unfold Close, Writer_Close, os_Rename. rewrite Hclose.
    rewrite Hout, lookup_insert_eq, Htmp, Hname', Hname, Hschema', Hschema.
    rewrite (write_batches_rows _ _ _ Hwrite), Hrows. simpl.
    by rewrite insert_insert_eq, delete_insert_eq. }
  split; [done|]. rewrite Hresult. unfold stored_rows. cbn [snd].
  rewrite lookup_insert_eq. cbn [parquet.data]. apply omap_event_row.
Qed.

Lemma ParquetMapWriter_publishes_rows_witness :
  ∃ w fs1,
    NewParquetMapWriter (plain_env []) "parquet-go.parquet"
      (parquet.NewSchema "schema" ∅) fs0 = (Ok w, fs1) ∧
    stored_rows
      (Close (plain_env []) None
         (write_batches (plain_env []) w
            [[ {[ "x" := VInt 1 ]}; {[ "x" := VInt 2 ]} ]; [ {[ "x" := VInt 3 ]} ]])
         fs1).2 "parquet-go.parquet"
    = [ {[ "x" := VInt 1 ]}; {[ "x" := VInt 2 ]}; {[ "x" := VInt 3 ]} ].
Proof.
  destruct (ParquetMapWriter_publishes_rows (plain_env []) "parquet-go.parquet"
              (parquet.NewSchema "schema" ∅) fs0
              [[ {[ "x" := VInt 1 ]}; {[ "x" := VInt 2 ]} ]; [ {[ "x" := VInt 3 ]} ]])
    as (w & fs1 & Hnew & _ & Hrows).
  - reflexivity.
  - reflexivity.
  - intros k. reflexivity.
  - reflexivity.
  - exists w, fs1. split; [exact Hnew | exact Hrows].
Defined.

(** * The schema reader *)

(** X14. Every descriptor the type switch of [getSchema] accepts is
    accepted by the merge command's [schemaTypeToNode] too.  Unless the
    descriptor is annotated "STRING" without being a BYTE_ARRAY, both give
    the same leaf type, required in one and optional in the other; on such
    an annotated descriptor [getSchema] ignores the annotation while the
    merge command maps the column to string. *)
Theorem getSchema_node_agrees (typ logical : string) (node : parquet.Node) :
  getSchema_node typ logical = Ok node →
  ∃ n, node = parquet.Required n ∧
       (logical ≠ "STRING" ∨ typ = "BYTE_ARRAY" →
          schemaTypeToNode typ logical = Ok (parquet.Optional n)) ∧
       (logical = "STRING" → typ ≠ "BYTE_ARRAY" →
          schemaTypeToNode typ logical = Ok (parquet.Optional parquet.String)
          ∧ n ≠ parquet.String).
Proof.
  unfold getSchema_node. intros Hnode.
  assert (Hstring : logical = "STRING" →
            schemaTypeToNode typ logical = Ok (parquet.Optional parquet.String)).
  { intros ->. unfold schemaTypeToNode. by rewrite decide_True. }
  assert (Hplain : ∀ n, logical ≠ "STRING" → nodemap !! typ = Some n →
            schemaTypeToNode typ logical = Ok n).
  { intros n Hl Hn. unfold schemaTypeToNode.
    rewrite decide_False by done. by rewrite Hn. }
  repeat case_decide; simplify_eq; eexists; (split; [reflexivity|]);
    (split; [intros [Hl|Ht] | intros Hl Ht]);
    try done; try (by apply Hplain); try (by apply Hstring);
    try (split; [by apply Hstring | done]).
Qed.

Lemma getSchema_node_agrees_witness :
  schemaTypeToNode "INT64" "TIMESTAMP"
  = Ok (parquet.Optional (parquet.Int 64)).
Proof.
  destruct (getSchema_node_agrees "INT64" "TIMESTAMP"
              (parquet.Required (parquet.Int 64)))
    as (n & Hn & Hsame & _).
  - reflexivity.
  - injection Hn as <-. apply Hsame. left. discriminate.
Defined.

Lemma getSchema_loop_app l1 l2 nodes :
  getSchema_loop (l1 ++ l2) nodes = getSchema_loop l1 nodes ≫= getSchema_loop l2.
Proof.
  revert nodes. induction l1 as [|d l1 IH]; intros nodes; [done|].
  simpl. destruct (getSchema_step nodes d) as [nodes'|e]; [|done].
  apply IH.
Qed.

Lemma getSchema_loop_untouched md nodes nodes' k :
  getSchema_loop md nodes = Ok nodes' →
  (∀ e, e ∈ md → format.Type_ e ≠ None → format.Name e ≠ k) →
  nodes' !! k = nodes !! k.
Proof.
  revert nodes. induction md as [|d md IH]; intros nodes Hloop Hmd.
  - by simplify_eq/=.
  - simpl in Hloop.
    destruct (getSchema_step nodes d) as [nodes1|] eqn:Hstep; [|done].
    simpl in Hloop. rewrite (IH _ Hloop).
    2:{ intros e He. apply Hmd. by right. }
    revert Hstep. unfold getSchema_step.
    destruct (format.Type_ d) as [typ|] eqn:Hd; [|by intros [= <-]].
    destruct (getSchema_node _ _); [|done]. simpl. intros [= <-].
    rewrite lookup_insert_ne; [done|]. apply Hmd; [by left | by rewrite Hd].
Qed.

Lemma getSchema_loop_Err md nodes err :
  getSchema_loop md nodes = Err err →
  ∃ d typ, d ∈ md ∧ format.Type_ d = Some typ ∧
           err = ErrUnsupportedType typ (default "" (format.LogicalType d)).
Proof.
  revert nodes. induction md as [|d md IH]; intros nodes Hloop; [done|].
  simpl in Hloop.
  destruct (getSchema_step nodes d) as [nodes1|err1] eqn:Hstep.
  - simpl in Hloop. destruct (IH _ Hloop) as (d' & typ & Hin & H).
    exists d', typ. split; [by right | done].
  - simpl in Hloop. injection Hloop as <-. revert Hstep.
    unfold getSchema_step. destruct (format.Type_ d) as [typ|] eqn:Hd; [|done].
    unfold getSchema_node. intros Hstep. exists d, typ.
    split; [by left|]. split; [done|].
    repeat case_decide; by simplify_eq/=.
Qed.

(** X15. The loop of [getSchema] never reports a conflict: it fails only
    with the unsupported-type error of a descriptor of the file, and when it
    succeeds, a name carried by several descriptors is bound to the type of
    the last of them. *)
Theorem getSchema_loop_last_binding (md : list format.SchemaElement)
    (nodes : gmap string parquet.Node) :
  match getSchema_loop md nodes with
  | Ok nodes' =>
      ∀ pre d post typ node,
        md = pre ++ d :: post →
        format.Type_ d = Some typ →
        getSchema_node typ (default "" (format.LogicalType d)) = Ok node →
        (∀ e, e ∈ post → format.Type_ e ≠ None →
              format.Name e ≠ format.Name d) →
        nodes' !! format.Name d = Some node
  | Err err =>
      ∃ d typ, d ∈ md ∧ format.Type_ d = Some typ ∧
               err = ErrUnsupportedType typ (default "" (format.LogicalType d))
  end.
Proof.
  destruct (getSchema_loop md nodes) as [nodes'|err] eqn:Hloop.
  - intros pre d post typ node -> Hd Hnode Hlast.
    rewrite getSchema_loop_app in Hloop.
    destruct (getSchema_loop pre nodes) as [nodes1|]; [|done].
    simpl in Hloop. unfold getSchema_step in Hloop.
    rewrite Hd, Hnode in Hloop. simpl in Hloop.
    rewrite (getSchema_loop_untouched _ _ _ _ Hloop Hlast).
    by rewrite lookup_insert_eq.
  - by eapply getSchema_loop_Err.
Qed.

(** * The first merger *)

(** X16. The type mapper of merger.go is the one of write-read.go on a
    smaller table: whatever it maps, write-read.go maps to the same node,
    and the descriptors that only write-read.go maps are the unsigned
    integers and FLOAT, which merger.go rejects as unsupported. *)
Theorem merger_schemaTypeToNode_included (typ logical : string)
    (node : parquet.Node) :
  (merger.schemaTypeToNode typ logical = Ok node →
     schemaTypeToNode typ logical = Ok node) ∧
  (schemaTypeToNode typ logical = Ok node →
     merger.schemaTypeToNode typ logical = Ok node
     ∨ (typ ∈ ["UINT8"; "UINT16"; "UINT32"; "UINT64"; "FLOAT"] ∧
        merger.schemaTypeToNode typ logical
        = Err (ErrUnsupportedType typ logical))).
Proof.
  unfold merger.schemaTypeToNode, schemaTypeToNode.
  destruct (decide (logical = "STRING")) as [Hl|Hl]; [by split; [|left]|].
  split.
  - destruct (merger.nodemap !! typ) as [node'|] eqn:Hn; [|done].
    intros [= <-]. apply elem_of_list_to_map_2 in Hn.
    rewrite (nodemap_canonical typ node'); [done|].
    repeat (apply elem_of_cons in Hn as [[= -> ->]|Hn];
            [by_computation|]).
    by apply elem_of_nil in Hn.
  - destruct (nodemap !! typ) as [node'|] eqn:Hn; [|done]. intros [= <-].
    change nodemap with (list_to_map canonical : gmap _ _) in Hn.
    apply elem_of_list_to_map_2 in Hn. unfold canonical in Hn.
    repeat (apply elem_of_cons in Hn as [[= -> ->]|Hn];
            [first [ by left
                   | right; split; [by_computation | reflexivity] ]|]).
    by apply elem_of_nil in Hn.
Qed.

Lemma merger_schemaTypeToNode_included_witness :
  schemaTypeToNode "DOUBLE" ""
  = Ok (parquet.Optional (parquet.Leaf parquet.DoubleType)).
Proof.
  refine (proj1 (merger_schemaTypeToNode_included "DOUBLE" "" _) _).
  reflexivity.
Defined.

Lemma merger_getSchemaNodes_stored fs file nodes :
  merger.getSchemaNodes fs file = Ok nodes → is_Some (fs !! file).
Proof.
  unfold merger.getSchemaNodes, os.Stat. by destruct (fs !! file).
Qed.

Lemma merger_merge_scan_fileSchema env fs i files mergedSchema fileSchema
    mergedSchema' fileSchema' :
  merger.merge_scan env fs i files mergedSchema fileSchema
    = Done (mergedSchema', fileSchema') →
  ∀ file,
    (file ∈ files →
       ∃ nodes, merger.getSchemaNodes fs file = Ok nodes ∧
                fileSchema' !! file = Some (parquet.NewSchema file nodes)) ∧
    (file ∉ files → fileSchema' !! file = fileSchema !! file).
Proof.
  revert i mergedSchema fileSchema.
  induction files as [|file0 files IH]; intros i mergedSchema fileSchema Hscan file.
  - injection Hscan as <- <-. split; [|done].
    intros Hin. by apply elem_of_nil in Hin.
  - cbn [merger.merge_scan] in Hscan.
    destruct (merger.getSchemaNodes fs file0) as [nodes|] eqn:Hnodes; [|done].
    destruct (merge_nodes _ _) as [mergedSchema1|]; [|done].
    destruct (IH _ _ _ Hscan file) as [Hin Hout]. split.
    + intros Hfile. destruct (decide (file ∈ files)) as [Hrest|Hrest];
        [by apply Hin|].
      apply elem_of_cons in Hfile as [->|Hfile]; [|done].
      exists nodes. split; [done|]. rewrite (Hout Hrest).
      by rewrite lookup_insert_eq.
    + intros Hfile. apply not_elem_of_cons in Hfile as [Hne Hrest].
      rewrite (Hout Hrest). by rewrite lookup_insert_ne.
Qed.

Lemma merger_merge_copy_never_fails env fs files fileSchema writer :
  (∀ file, file ∈ files → is_Some (fs !! file)) →
  ∃ writer',
    merger.merge_copy env fs files fileSchema writer = (None, writer') ∧
    wr_out writer' = wr_out writer ∧ wr_schema writer' = wr_schema writer.
Proof.
  revert writer. induction files as [|file files IH]; intros writer Hfiles.
  - by exists writer.
  - cbn [merger.merge_copy]. unfold os.Stat, os.Open.
    destruct (Hfiles file) as [inf ->]; [by left|].
    destruct (copyFromFile env inf writer _) as [err writer1] eqn:Hcopy.
    apply copyFromFile_wr_out in Hcopy as [Hout Hschema].
    destruct (IH writer1) as (writer' & -> & Hout' & Hschema').
    { intros file' Hin. apply Hfiles. by right. }
    exists writer'. split; [done|]. split; congruence.
Qed.

(** X17. Once the schemas are merged and the output file is created, the
    merge of merger.go cannot fail in its copy loop: the error of
    [copyFromFile] is dropped, so the run ends normally whenever the writer
    can be closed, with whatever records the writer took. *)
Theorem merger_merge_ignores_copy_errors (env : Env) (files : list string)
    (fs : FS) (mergedSchema : gmap string parquet.Node)
    (fileSchema : gmap string parquet.Schema) :
  merger.merge_scan env fs 0 files ∅ ∅ = Done (mergedSchema, fileSchema) →
  create_err env "merged.parquet" = None →
  config_err env (parquet.NewSchema "merged" mergedSchema) = None →
  close_err env = None →
  ∃ rows,
    merger.merge_files env files fs
    = (Done (),
       <["merged.parquet" :=
           Parquet
             {| parquet.Metadata_Schema :=
                  encode_schema env (parquet.NewSchema "merged" mergedSchema);
                parquet.data := parquet.Row <$> rows |}]> fs).
Proof.
  intros Hscan Hcreate Hconfig Hclose. unfold merger.merge_files, os.Create.
  rewrite Hscan, Hcreate, Hconfig.
  destruct (merger_merge_copy_never_fails env
              (<["merged.parquet" := Opaque]> fs) files fileSchema
              (NewGenericWriter "merged.parquet"
                 (parquet.NewSchema "merged" mergedSchema)))
    as (writer' & -> & Hout & Hschema).
  { intros file Hin.
    destruct (proj1 (merger_merge_scan_fileSchema _ _ _ _ _ _ _ _ Hscan file) Hin)
      as (nodes & Hnodes & _).
    apply merger_getSchemaNodes_stored in Hnodes.
    apply lookup_insert_is_Some'. by right. }
  unfold Writer_Close. rewrite Hclose, Hout, Hschema. simpl.
  exists (wr_rows writer'). by rewrite insert_insert_eq.
Qed.

Lemma merger_merge_ignores_copy_errors_witness :
  (merger.merge_files (with_write_fault (plain_env []) second_write_lost)
     files0 fs0).1 = Done () ∧
  merged_xs (merger.merge_files (with_write_fault (plain_env []) second_write_lost)
               files0 fs0).2 = [Some (VInt 5)].
Proof.
  destruct (merger.merge_scan (with_write_fault (plain_env []) second_write_lost)
              fs0 0 files0 ∅ ∅) as [[mergedSchema fileSchema]|msg] eqn:Hscan.
  - destruct (merger_merge_ignores_copy_errors
                (with_write_fault (plain_env []) second_write_lost)
                files0 fs0 mergedSchema fileSchema Hscan)
      as [rows Hmerge]; [reflexivity..|].
    split; [by rewrite Hmerge|]. vm_compute. reflexivity.
  - vm_compute in Hscan. discriminate Hscan.
Defined.

Lemma copyFromFile_all_rows env pf schema writer rows :
  parquet.data pf = parquet.Row <$> rows →
  (∀ k, write_fault env k = None) →
  copyFromFile env (Parquet pf) writer schema
  = (None, accepted writer (read_row schema <$> rows)).
Proof.
  intros Hdata Hok. unfold copyFromFile, NewReader. simpl.
  rewrite Hdata, <-list_fmap_compose.
  rewrite (list_fmap_ext _ (parquet.Row ∘ read_row schema) rows) by done.
  rewrite list_fmap_compose.
  rewrite <-(app_nil_r (parquet.Row <$> (read_row schema <$> rows))).
  by rewrite copy_loop_rows.
Qed.

Lemma merger_merge_copy_rows env fs fs1 files fileSchema writer :
  (∀ k, write_fault env k = None) →
  (∀ file, file ∈ files →
     fs1 !! file = fs !! file ∧
     (∃ pf rows, fs !! file = Some (Parquet pf)
                 ∧ parquet.data pf = parquet.Row <$> rows) ∧
     ∃ nodes, merger.getSchemaNodes fs file = Ok nodes ∧
              fileSchema !! file = Some (parquet.NewSchema file nodes)) →
  merger.merge_copy env fs1 files fileSchema writer
  = (None, accepted writer (files ≫= merger.rows_read fs)).
Proof.
  intros Hok. revert writer.
  induction files as [|file files IH]; intros writer Hfiles.
  - simpl. by rewrite accepted_nil.
  - cbn [merger.merge_copy]. unfold os.Stat, os.Open.
    destruct (Hfiles file) as (Hsame & (pf & rows & Hf & Hdata)
                               & (nodes & Hnodes & Hschema)); [by left|].
    rewrite Hsame, Hf, Hschema. cbn [default].
    rewrite (copyFromFile_all_rows _ _ _ _ _ Hdata Hok).
    rewrite IH by (intros file' Hin; apply Hfiles; by right).
    rewrite accepted_app, bind_cons. do 3 f_equal.
    unfold merger.rows_read, stored_rows.
    by rewrite Hnodes, Hf, Hdata, omap_event_row.
Qed.

(** X18. The merge of merger.go copies the files in the order of its
    list: when every file can be read to its end and no write fails, the
    output holds the records of the first file, then those of the second,
    and so on, whatever the order of [range] over maps is. *)
Theorem merger_merge_copies_in_input_order (env : Env) (files : list string)
    (fs : FS) (mergedSchema : gmap string parquet.Node)
    (fileSchema : gmap string parquet.Schema) :
  merger.merge_scan env fs 0 files ∅ ∅ = Done (mergedSchema, fileSchema) →
  create_err env "merged.parquet" = None →
  config_err env (parquet.NewSchema "merged" mergedSchema) = None →
  close_err env = None →
  (∀ k, write_fault env k = None) →
  "merged.parquet" ∉ files →
  (∀ file, file ∈ files →
     ∃ pf rows, fs !! file = Some (Parquet pf)
                ∧ parquet.data pf = parquet.Row <$> rows) →
  merger.merge_files env files fs
  = (Done (),
     <["merged.parquet" :=
         Parquet
           {| parquet.Metadata_Schema :=
                encode_schema env (parquet.NewSchema "merged" mergedSchema);
              parquet.data :=
                parquet.Row <$> (files ≫= merger.rows_read fs) |}]> fs).
Proof.
  intros Hscan Hcreate Hconfig Hclose Hwrite Hout Hfiles.
  unfold merger.merge_files, os.Create. rewrite Hscan, Hcreate, Hconfig.
  rewrite (merger_merge_copy_rows env fs).
  - unfold Writer_Close. rewrite Hclose. simpl. by rewrite insert_insert_eq.
  - done.
  - intros file Hin. split; [|split; [by apply Hfiles|]].
    + rewrite lookup_insert_ne; [done|]. by intros <-.
    + by apply (merger_merge_scan_fileSchema _ _ _ _ _ _ _ _ Hscan file).
Qed.

Lemma merger_merge_copies_in_input_order_witness :
  merged_xs (merger.merge_files reversed_env ["d/b.parquet"; "d/a.parquet"] fs0).2
  = [Some (VInt 7); Some (VInt 8); Some (VInt 5)].
Proof.
  destruct (merger.merge_scan reversed_env fs0 0 ["d/b.parquet"; "d/a.parquet"]
              ∅ ∅) as [[mergedSchema fileSchema]|msg] eqn:Hscan.
  - rewrite (merger_merge_copies_in_input_order reversed_env
               ["d/b.parquet"; "d/a.parquet"] fs0 mergedSchema fileSchema Hscan).
    + unfold merged_xs, stored_rows. cbn [snd]. rewrite lookup_insert_eq.
      cbn [parquet.data]. rewrite omap_event_row. vm_compute. reflexivity.
    + reflexivity.
    + reflexivity.
    + reflexivity.
    + intros k. reflexivity.
    + intros Hin. repeat (apply elem_of_cons in Hin as [Hin|Hin];
                          [discriminate Hin|]).
      by apply elem_of_nil in Hin.
    + intros file Hin.
      apply elem_of_cons in Hin as [->|Hin].
      * eexists _, [ {[ "x" := VInt 7; "z" := VBool true ]}; {[ "x" := VInt 8 ]} ].
        split; vm_compute; reflexivity.
      * apply list_elem_of_singleton in Hin as ->.
        eexists _, [ {[ "x" := VInt 5; "y" := VString "hi" ]} ].
        split; vm_compute; reflexivity.
  - vm_compute in Hscan. discriminate Hscan.
Defined.

(** X19. [bToMb] turns a byte count into whole mebibytes: for every
    [uint64] it is the count shifted right by twenty bits, nothing wraps
    around, and the result is below 2^44. *)
Theorem bToMb_mebibytes (b : Z) :
  0 ≤ b < 2 ^ 64 →
  merger.bToMb b = Z.shiftr b 20 ∧
  merger.bToMb b * 2 ^ 20 ≤ b < (merger.bToMb b + 1) * 2 ^ 20 ∧
  0 ≤ merger.bToMb b < 2 ^ 44.
Proof.
  intros Hb. unfold merger.bToMb, merger.uint64.
  assert (H1 : 0 ≤ b / 1024 < 2 ^ 54).
  { split; [apply Z.div_pos; lia|]. apply Z.div_lt_upper_bound; lia. }
  rewrite (Z.mod_small (b / 1024)) by lia.
  assert (H2 : 0 ≤ b / 1024 / 1024 < 2 ^ 44).
  { split; [apply Z.div_pos; lia|]. apply Z.div_lt_upper_bound; lia. }
  rewrite Z.mod_small by lia.
  assert (Hdiv : b / 1024 / 1024 = b / 2 ^ 20).
  { rewrite Z.div_div by lia. done. }
  rewrite Hdiv in *. split; [by rewrite Z.shiftr_div_pow2|].
  split; [|done].
  pose proof (Z.div_mod b (2 ^ 20)) as Hdm.
  pose proof (Z.mod_pos_bound b (2 ^ 20)) as Hm. lia.
Qed.

Lemma bToMb_mebibytes_witness : merger.bToMb 3145729 = 3.
Proof.
  destruct (bToMb_mebibytes 3145729) as [-> _]; [lia|]. reflexivity.
Defined.

(** * Completion of the merge command *)




(** * The two extractors *)

Lemma merger_schemaTypeToNode_sub typ logical node :
  merger.schemaTypeToNode typ logical = Ok node →
  schemaTypeToNode typ logical = Ok node.
Proof.
  unfold merger.schemaTypeToNode, schemaTypeToNode.
  destruct (decide (logical = "STRING")); [done|].
  destruct (merger.nodemap !! typ) as [node'|] eqn:Hn; [|done].
  intros [= <-]. apply elem_of_list_to_map_2 in Hn.
  rewrite (nodemap_canonical typ node'); [done|].
  repeat (apply elem_of_cons in Hn as [[= -> ->]|Hn]; [by_computation|]).
  by apply elem_of_nil in Hn.
Qed.

Lemma merger_getSchemaNodes_loop_sub md nodes nodes' :
  merger.getSchemaNodes_loop md nodes = Ok nodes' →
  getSchemaNodes_loop md nodes = Ok nodes'.
Proof.
  revert nodes. induction md as [|d md IH]; intros nodes Hloop; [done|].
  simpl in *.
  destruct (merger.getSchemaNodes_step nodes d) as [nodes1|] eqn:Hstep;
    [|done].
  assert (getSchemaNodes_step nodes d = Ok nodes1) as ->; [|by apply IH].
  revert Hstep. unfold merger.getSchemaNodes_step, getSchemaNodes_step.
  destruct (format.Type_ d) as [typ|]; [|done].
  destruct (merger.schemaTypeToNode _ _) as [stype|] eqn:Hty; [|done].
  by rewrite (merger_schemaTypeToNode_sub _ _ _ Hty).
Qed.

(** X21. Whatever schema merger.go extracts from a file, write-read.go
    extracts the same schema from it: the later extractor only accepts more
    files. *)
Theorem merger_getSchemaNodes_refined (fs : FS) (fname : string)
    (nodes : gmap string parquet.Node) :
  merger.getSchemaNodes fs fname = Ok nodes →
  getSchemaNodes fs fname = Ok nodes.
Proof.
  unfold merger.getSchemaNodes, getSchemaNodes.
  destruct (os.Stat fs fname); [|done]. simpl.
  destruct (os.Open fs fname) as [inf|]; [|done]. simpl.
  destruct (parquet_OpenFile inf) as [pf|]; [|done]. simpl.
  apply merger_getSchemaNodes_loop_sub.
Qed.

Lemma merger_getSchemaNodes_refined_witness :
  getSchemaNodes fs0 "d/b.parquet"
  = Ok {[ "x" := parquet.Optional (parquet.Int 64);
          "z" := parquet.Optional (parquet.Leaf parquet.BooleanType) ]}.
Proof.
  apply merger_getSchemaNodes_refined. vm_compute. reflexivity.
Defined.
